(** * The Borsh instruction coder of the Anchor TypeScript client

    A shallow embedding of [ts/packages/anchor/src/coder/borsh/instruction.ts]:
    the class [BorshInstructionCoder] (constructor, [encode], [decode],
    [format]), the class [InstructionFormatter] and the helpers
    [sentenceCase] and [sighash], followed by the properties of the
    specification that concern them.

    Conventions.
    - A JavaScript exception is a value of [exn]; a function that may throw
      returns a [result].
    - Strings are sequences of 8-bit code units.  The identifiers of an IDL
      are ASCII, and the case conversions below act on the ASCII letters.
    - A [Buffer] is a list of bytes.
    - A [Map<string, _>] is a [gmap string _]. *)

From Stdlib Require Import ZArith List Ascii String Lia.
From Stdlib.Strings Require Import Byte.
From stdpp Require Import base strings list gmap pretty.

Set Warnings "-register-all".

(** ** Exceptions and results *)

Inductive exn :=
| Error (msg : string)   (* [throw new Error(msg)] *)
| TypeError              (* a call or a property access on a value that does not allow it *)
| RangeError             (* a write or a read outside a buffer *)
| OutOfFuel.             (* the recursion budget of the model is used up; not a JavaScript exception *)

Inductive result (A : Type) :=
| Ok (a : A)
| Err (e : exn).
Arguments Ok {A} a.
Arguments Err {A} e.

#[global] Instance result_ret : MRet result := fun _ a => Ok a.
#[global] Instance result_bind : MBind result := fun _ _ f r =>
  match r with Ok a => f a | Err e => Err e end.
#[global] Instance result_fmap : FMap result := fun _ _ f r =>
  match r with Ok a => Ok (f a) | Err e => Err e end.

Definition isOk {A} (r : result A) : bool :=
  match r with Ok _ => true | Err _ => false end.

Definition ofOption {A} (o : option A) : result A :=
  match o with Some a => Ok a | None => Err TypeError end.


(** ** JavaScript values

    The values that flow through the coder: what a layout decodes, what
    [encode] is given and what the formatter prints.  Integers stand for
    both numbers and big numbers (both print in decimal); an object is the
    list of its own properties in property order, with pairwise distinct
    keys. *)

Inductive value :=
| VUndefined
| VNull
| VBool (b : bool)
| VNum (n : Z)
| VStr (s : string)
| VArr (elems : list value)
| VObj (props : list (string * value)).

(** [String(v)], the conversion a template literal and [Array.prototype.join]
    apply. *)
Fixpoint toStr (v : value) : string :=
  match v with
  | VUndefined => "undefined"
  | VNull => "null"
  | VBool true => "true"
  | VBool false => "false"
  | VNum n => pretty n
  | VStr s => s
  | VArr elems =>
      String.concat ","
        (map (fun e => match e with VUndefined | VNull => "" | _ => toStr e end) elems)
  | VObj _ => "[object Object]"
  end.

(** [v.toString()]: a method call, which throws on [null] and [undefined]. *)
Definition toString (v : value) : result string :=
  match v with
  | VUndefined | VNull => Err TypeError
  | _ => Ok (toStr v)
  end.

(** The index an array or a string has under the property key [key], when
    [key] is the decimal form of an index below [len]. *)
Definition arrayIndex (key : string) (len : nat) : option nat :=
  List.find (fun i => String.eqb (pretty i) key) (seq 0 len).

Definition chars (s : string) : list string :=
  map (fun c => String c EmptyString) (list_ascii_of_string s).

(** [Object.keys(v)] *)
Definition objectKeys (v : value) : result (list string) :=
  match v with
  | VUndefined | VNull => Err TypeError
  | VBool _ | VNum _ => Ok []
  | VStr s => Ok (map pretty (seq 0 (String.length s)))
  | VArr elems => Ok (map pretty (seq 0 (length elems)))
  | VObj props => Ok (map fst props)
  end.

Fixpoint assoc {A} (key : string) (props : list (string * A)) : option A :=
  match props with
  | [] => None
  | (k, a) :: rest => if String.eqb k key then Some a else assoc key rest
  end.

(** [v[key]], for own properties (and [length]). *)
Definition getProp (v : value) (key : string) : result value :=
  match v with
  | VUndefined | VNull => Err TypeError
  | VBool _ | VNum _ => Ok VUndefined
  | VStr s =>
      match arrayIndex key (String.length s) with
      | Some i => Ok (default VUndefined (VStr <$> chars s !! i))
      | None => if String.eqb key "length" then Ok (VNum (Z.of_nat (String.length s)))
                else Ok VUndefined
      end
  | VArr elems =>
      match arrayIndex key (length elems) with
      | Some i => Ok (default VUndefined (elems !! i))
      | None => if String.eqb key "length" then Ok (VNum (Z.of_nat (length elems)))
                else Ok VUndefined
      end
  | VObj props => Ok (default VUndefined (assoc key props))
  end.

(** Truthiness of an optional string: [undefined] and [""] are falsy. *)
Definition truthy (s : option string) : bool :=
  match s with
  | Some (String _ _) => true
  | _ => false
  end.

(** ** The IDL ([idl.ts], type declarations) *)

Inductive IdlType :=
| IdlTypePrim (label : string)            (* [typeof idlType === "string"]: "bool", "u8", ..., "publicKey" *)
| IdlTypeVec (vec : IdlType)              (* [{ vec: T }] *)
| IdlTypeOption (option : IdlType)        (* [{ option: T }] *)
| IdlTypeDefined (defined : string)       (* [{ defined: name }] *)
| IdlTypeArray (elem : IdlType) (len : N) (* [{ array: [T, n] }] *)
| IdlTypeOther.                           (* an object with none of these keys *)

Record IdlField := { f_name : string; f_type : IdlType }.

Inductive IdlEnumFields :=
| IdlEnumFieldsNamed (fields : list IdlField)
| IdlEnumFieldsTuple (fields : list IdlType).

Record IdlEnumVariant := { v_name : string; v_fields : option IdlEnumFields }.

Inductive IdlTypeDefTy :=
| IdlTypeDefTyStruct (fields : list IdlField)         (* [kind: "struct"] *)
| IdlTypeDefTyEnum (variants : list IdlEnumVariant).  (* [kind: "enum"] *)

Record IdlTypeDef := { td_name : string; td_type : IdlTypeDefTy }.

Inductive IdlAccountItem :=
| IdlAccount (name : string) (isMut isSigner : bool)
| IdlAccounts (name : string) (accounts : list IdlAccountItem).

Definition acc_name (a : IdlAccountItem) : string :=
  match a with IdlAccount n _ _ => n | IdlAccounts n _ => n end.

Record IdlDiscriminant := { disc_value : list Z }.

Record IdlInstruction := {
  ix_name : string;
  ix_accounts : list IdlAccountItem;
  ix_args : list IdlField;
  ix_discriminant : option IdlDiscriminant
}.

Record Idl := {
  instructions : list IdlInstruction;
  accounts : option (list IdlTypeDef);
  types : option (list IdlTypeDef)
}.

(** ** Buffers and layouts *)

Abbreviation Buffer := (list byte).

#[global] Instance byte_eq_dec : EqDecision byte := Byte.byte_eq_dec.

(** [Buffer.from(numbers)]: every number is taken modulo 256. *)
Definition byte_of_Z (z : Z) : byte :=
  default x00 (Byte.of_N (Z.to_N (z mod 256))).

Definition Buffer_from (numbers : list Z) : Buffer := map byte_of_Z numbers.

Definition Buffer_alloc (size : nat) : Buffer := replicate size x00.

(** [b.subarray(start, end)] and [b.subarray(start)] *)
Definition subarray (b : Buffer) (start stop : nat) : Buffer :=
  drop start (take stop b).
Definition subarray_from (b : Buffer) (start : nat) : Buffer := drop start b.

(** The interface [Layout] of [buffer-layout]: [encode(src, b)] writes [src]
    at the start of [b] and returns the number of bytes written, [decode(b)]
    reads a value from the start of [b], [getSpan(b)] is the number of bytes
    the value at the start of [b] takes, [property] is the key under which a
    structure keeps the value.  The coder itself calls [encode] and [decode]
    only. *)
Record Layout := {
  property : option string;
  layout_encode : value → Buffer → result (nat * Buffer);
  layout_decode : Buffer → result value;
  layout_getSpan : Buffer → result nat
}.

(** ** What the module imports

    The packages [camelcase], [snake-case], [js-sha256] and [bs58], the
    hexadecimal decoding of [Buffer.from], and one fact about the runtime:
    which property names an array inherits. *)
Class Externals := {
  (* [camelCase(s)] *)
  camelCase : string → string;
  (* [camelCase(s, { pascalCase: true })] *)
  camelCasePascal : string → string;
  (* [snakeCase(s)] *)
  snakeCase : string → string;
  (* [sha256.digest(s)]: the digest of the UTF-8 encoding of [s] *)
  sha256_digest : string → Buffer;
  (* [bs58.encode(b)] *)
  bs58_encode : Buffer → string;
  (* [bs58.decode(s)], which throws on a character outside the alphabet *)
  bs58_decode : string → result Buffer;
  (* [Buffer.from(s, "hex")] *)
  hex_decode : string → Buffer;
  (* [arrayInherits k]: the key [k], not an index, names a property that
     every array has ("length", "map", "constructor", ...) and whose value
     has no method [filter] *)
  arrayInherits : string → bool
}.

(** What the properties below need of the packages: distinct byte strings
    have distinct Base58 texts, and a SHA-256 digest has 32 bytes. *)
Class ExternalsLaws `{Externals} := {
  bs58_encode_inj : ∀ b1 b2 : Buffer, bs58_encode b1 = bs58_encode b2 → b1 = b2;
  sha256_digest_length : ∀ s : string, length (sha256_digest s) = 32
}.

(** The part of the coder that lives in [coder/borsh/idl.ts] and in
    [@coral-xyz/borsh]: [IdlCoder.fieldLayout(field, types)], which throws
    on a type it cannot resolve, and [borsh.struct(fieldLayouts, name)]. *)
Class LayoutLib := {
  fieldLayout : IdlField → list IdlTypeDef → result Layout;
  struct : list Layout → string → Layout
}.

(** ** [sentenceCase] and [sighash] *)

Definition isUpperAZ (c : ascii) : bool :=
  ((65 <=? nat_of_ascii c) && (nat_of_ascii c <=? 90))%nat.
Definition isLowerAZ (c : ascii) : bool :=
  ((97 <=? nat_of_ascii c) && (nat_of_ascii c <=? 122))%nat.

Definition toUpperChar (c : ascii) : ascii :=
  if isLowerAZ c then ascii_of_nat (nat_of_ascii c - 32) else c.
Definition toLowerChar (c : ascii) : ascii :=
  if isUpperAZ c then ascii_of_nat (nat_of_ascii c + 32) else c.

Fixpoint mapChars (f : ascii → ascii) (s : string) : string :=
  match s with
  | EmptyString => EmptyString
  | String c rest => String (f c) (mapChars f rest)
  end.

Definition toUpperCase : string → string := mapChars toUpperChar.
Definition toLowerCase : string → string := mapChars toLowerChar.

(** [s.charAt(0)] and [s.slice(1)] *)
Definition charAt0 (s : string) : string :=
  match s with EmptyString => EmptyString | String c _ => String c EmptyString end.
Definition slice1 (s : string) : string :=
  match s with EmptyString => EmptyString | String _ rest => rest end.

(** [field.replace(/([A-Z])/g, " $1")] *)
Fixpoint spaceCapitals (field : string) : string :=
  match field with
  | EmptyString => EmptyString
  | String c rest =>
      if isUpperAZ c then String " " (String c (spaceCapitals rest))
      else String c (spaceCapitals rest)
  end.

Definition sentenceCase (field : string) : string :=
  let result := spaceCapitals field in
  toUpperCase (charAt0 result) +:+ slice1 result.

Definition SIGHASH_GLOBAL_NAMESPACE : string := "global".

Definition sighash `{Externals} (nameSpace ixName : string) : Buffer :=
  let name := snakeCase ixName in
  let preimage := nameSpace +:+ ":" +:+ name in
  subarray (sha256_digest preimage) 0 8.

(** ** [InstructionFormatter] *)

Record Instruction := { name : string; data : value }.

Record AccountMeta := { pubkey : Buffer; isSigner : bool; isWritable : bool }.

Record DisplayArg := { arg_name : string; arg_type : string; arg_data : string }.

Record DisplayAccount := {
  da_name : option string;
  da_pubkey : Buffer;
  da_isSigner : bool;
  da_isWritable : bool
}.

Record InstructionDisplay := {
  args : list DisplayArg;
  display_accounts : list DisplayAccount
}.

(** A flattened account: an [IdlAccount] with its display name. *)
Record FlatAccount := { fa_name : string; fa_isMut : bool; fa_isSigner : bool }.

Module InstructionFormatter.

(** [`${t}`] for an IDL type [t]: the string itself, or what
    [Object.prototype.toString] gives for an object. *)
Definition templateOfType (t : IdlType) : string :=
  match t with
  | IdlTypePrim label => label
  | _ => "[object Object]"
  end.

Fixpoint formatIdlType (idlType : IdlType) : result string :=
  match idlType with
  | IdlTypePrim label => Ok label
  | IdlTypeVec vec =>
      inner ← formatIdlType vec; Ok ("Vec<" +:+ inner +:+ ">")
  | IdlTypeOption option =>
      inner ← formatIdlType option; Ok ("Option<" +:+ inner +:+ ">")
  | IdlTypeDefined defined => Ok defined
  | IdlTypeArray elem len =>
      Ok ("Array<" +:+ templateOfType elem +:+ "; " +:+ pretty len +:+ ">")
  | IdlTypeOther => Err (Error "Unknown IDL type: [object Object]")
  end.

(** The outcome of [variants[key]] on an array. *)
Inductive arrayProp (A : Type) :=
| PropUndefined
| PropElement (a : A)
| PropInherited.
Arguments PropUndefined {A}.
Arguments PropElement {A} a.
Arguments PropInherited {A}.

Definition arrayGet `{Externals} {A} (arr : list A) (key : string) : arrayProp A :=
  match arrayIndex key (length arr) with
  | Some i => match arr !! i with Some a => PropElement a | None => PropUndefined end
  | None => if arrayInherits key then PropInherited else PropUndefined
  end.

Section formatIdlDataDefined.
Context `{Externals}.
(* the recursive call to [formatIdlData] *)
Variable formatIdlData :
  IdlField → value → option (list IdlTypeDef) → result string.

Definition formatIdlDataDefined
    (typeDef : IdlTypeDef) (data : value) (types : list IdlTypeDef) : result string :=
  match td_type typeDef with
  | IdlTypeDefTyStruct struct_fields =>
      keys ← objectKeys data;
      fields ← mapM (fun k =>
        match filter (fun f => f_name f = k) struct_fields with
        | [] => Err (Error "Unable to find type")
        | f :: _ =>
            d ← getProp data k;
            s ← formatIdlData f d (Some types);
            Ok (k +:+ ": " +:+ s)
        end) keys;
      Ok ("{ " +:+ String.concat ", " fields +:+ " }")
  | IdlTypeDefTyEnum variants =>
      match variants with
      | [] => Ok "{}"
      | v0 :: _ =>
          if truthy (Some (v_name v0)) then
            (* Struct enum. *)
            keys ← objectKeys data;
            let variant := head keys in
            enumType ← getProp data (default "undefined" variant);
            fnames ← objectKeys enumType;
            namedFields ← mapM (fun f =>
              fieldData ← getProp enumType f;
              (* [variants[variant]?.filter((v) => v.name === f)[0]]: the
                 array [variants] is indexed by the variant's name.  When
                 it has no such property the optional chain gives
                 [undefined]; a variant object or an inherited property
                 has no method [filter], and calling it throws. *)
              idlField ← match arrayGet variants (default "undefined" variant)
                         return result (option IdlField) with
                         | PropUndefined => Ok None
                         | PropElement _ | PropInherited => Err TypeError
                         end;
              match idlField with
              | None => Err (Error "Unable to find variant")
              | Some idlField =>
                  s ← formatIdlData idlField fieldData (Some types);
                  Ok (f +:+ ": " +:+ s)
              end) fnames;
            match variant with
            | None => Err TypeError
            | Some variant =>
                let variantName := camelCasePascal variant in
                let namedFields := String.concat ", " namedFields in
                if String.length namedFields =? 0 then Ok variantName
                else Ok (variantName +:+ " { " +:+ namedFields +:+ " }")
            end
          else
            (* Tuple enum. *)
            Ok "Tuple formatting not yet implemented"
      end
  end.
End formatIdlDataDefined.

Fixpoint formatIdlData `{Externals} (fuel : nat)
    (idlField : IdlField) (data : value) (types : option (list IdlTypeDef))
    : result string :=
  match fuel with
  | O => Err OutOfFuel
  | S fuel =>
      match f_type idlField with
      | IdlTypePrim _ => toString data
      | IdlTypeVec vec =>
          match data with
          | VArr elems =>
              strs ← mapM (fun d =>
                formatIdlData fuel {| f_name := ""; f_type := vec |} d None) elems;
              Ok ("[" +:+ String.concat ", " strs +:+ "]")
          | _ => Err TypeError
          end
      | IdlTypeOption option =>
          match data with
          | VNull => Ok "null"
          | _ => formatIdlData fuel {| f_name := ""; f_type := option |} data types
          end
      | IdlTypeDefined defined =>
          match types with
          | None => Err (Error "User defined types not provided")
          | Some types =>
              match filter (fun t => td_name t = defined) types with
              | [t] => formatIdlDataDefined (formatIdlData fuel) t data types
              | _ => Err (Error ("Type not found: " +:+ defined))
              end
          end
      | _ => Ok "unknown"
      end
  end.

Fixpoint flattenIdlAccount (prefix : option string) (account : IdlAccountItem)
    : list FlatAccount :=
  let accName := sentenceCase (acc_name account) in
  let named :=
    if truthy prefix then default "" prefix +:+ " > " +:+ accName else accName in
  match account with
  | IdlAccounts _ accounts =>
      let newPrefix := named in
      concat (map (flattenIdlAccount (Some newPrefix)) accounts)
  | IdlAccount _ isMut isSigner =>
      [ {| fa_name := named; fa_isMut := isMut; fa_isSigner := isSigner |} ]
  end.

(** [accounts.map(...).flat()] *)
Definition flattenIdlAccounts (accounts : list IdlAccountItem) (prefix : option string)
    : list FlatAccount :=
  concat (map (flattenIdlAccount prefix) accounts).

(** The callback of [idlIx.args.map]: one argument, rendered. *)
Definition formatArg `{Externals} (fuel : nat) (ix : Instruction) (idl : Idl)
    (idlField : IdlField) : result DisplayArg :=
  ty ← formatIdlType (f_type idlField);
  d ← getProp (data ix) (f_name idlField);
  s ← formatIdlData fuel idlField d (types idl);
  Ok {| arg_name := f_name idlField; arg_type := ty; arg_data := s |}.

Definition format `{Externals} (fuel : nat)
    (ix : Instruction) (accountMetas : list AccountMeta) (idl : Idl)
    : result (option InstructionDisplay) :=
  match filter (fun i => name ix = ix_name i) (instructions idl) with
  | [] => Ok None
  | idlIx :: _ =>
      args ← mapM (formatArg fuel ix idl) (ix_args idlIx);
      let flatIdlAccounts := flattenIdlAccounts (ix_accounts idlIx) None in
      let accounts := imap (fun idx meta =>
        {| da_name :=
             if (idx <? length flatIdlAccounts)%nat
             then fa_name <$> flatIdlAccounts !! idx else None;
           da_pubkey := pubkey meta;
           da_isSigner := isSigner meta;
           da_isWritable := isWritable meta |}) accountMetas in
      Ok (Some {| args := args; display_accounts := accounts |})
  end.

End InstructionFormatter.

(** ** [BorshInstructionCoder] *)

(** [new Map(entries)] and a loop of [set]: a later entry replaces an
    earlier one with the same key. *)
Definition Map_of {A} (entries : list (string * A)) : gmap string A :=
  foldl (fun m kv => <[kv.1 := kv.2]> m) ∅ entries.

Fixpoint foldlM {S A} (f : S → A → result S) (s : S) (l : list A) : result S :=
  match l with
  | [] => Ok s
  | a :: rest => s' ← f s a; foldlM f s' rest
  end.

Inductive Encoding := hex | base58.

(** The argument of [decode]: [Buffer | string]. *)
Inductive IxInput :=
| IxBuffer (b : Buffer)
| IxString (s : string).

Module BorshInstructionCoder.

(** An entry of [discriminatorLayouts]; [this.ixLayout.get(ix.name)] may be
    [undefined]. *)
Record Decoder := { layout : option Layout; decoder_name : string }.

(** The fields of an instance. *)
Record t := {
  idl : Idl;
  ixLayout : gmap string Layout;
  discriminatorLayouts : gmap string Decoder;
  ixDiscriminator : gmap string Buffer;
  discriminatorLength : option nat   (* [undefined] until the loop sets it *)
}.

Section methods.
Context `{Externals} `{LayoutLib}.

Definition parseIxLayout (idl : Idl) : result (gmap string Layout) :=
  ixLayouts ← mapM (fun ix =>
    fieldLayouts ← mapM (fun arg =>
      fieldLayout arg (default [] (accounts idl) ++ default [] (types idl)))
      (ix_args ix);
    let name := camelCase (ix_name ix) in
    Ok (name, struct fieldLayouts name)) (instructions idl);
  Ok (Map_of ixLayouts).

(** The discriminator of one instruction and the length recorded for it. *)
Definition discriminatorOf (ix : IdlInstruction) : Buffer * nat :=
  match ix_discriminant ix with
  | Some discriminant =>
      (Buffer_from (disc_value discriminant), length (disc_value discriminant))
  | None => (sighash SIGHASH_GLOBAL_NAMESPACE (ix_name ix), 8)
  end.

(** What the loop of the constructor has built so far. *)
Record loopState := {
  ls_discriminatorLayouts : gmap string Decoder;
  ls_ixDiscriminator : gmap string Buffer;
  ls_discriminatorLength : option nat
}.

(** One turn of [idl.instructions.forEach]. *)
Definition loopBody (ixLayout : gmap string Layout) (st : loopState) (ix : IdlInstruction)
    : result loopState :=
  let '(discriminator, discriminatorLength) := discriminatorOf ix in
  let discriminatorLayouts :=
    <[bs58_encode discriminator :=
        {| layout := ixLayout !! ix_name ix; decoder_name := ix_name ix |}]>
      (ls_discriminatorLayouts st) in
  let ixDiscriminator := <[ix_name ix := discriminator]> (ls_ixDiscriminator st) in
  match ls_discriminatorLength st with
  | Some (S n) =>
      if decide (S n ≠ discriminatorLength) then
        Err (Error "All instructions must have the same discriminator length")
      else Ok {| ls_discriminatorLayouts := discriminatorLayouts;
                 ls_ixDiscriminator := ixDiscriminator;
                 ls_discriminatorLength := Some discriminatorLength |}
  | _ => (* [this.discriminatorLength] is [undefined] or [0]: falsy *)
      Ok {| ls_discriminatorLayouts := discriminatorLayouts;
            ls_ixDiscriminator := ixDiscriminator;
            ls_discriminatorLength := Some discriminatorLength |}
  end.

Definition constructor (idl : Idl) : result t :=
  ixLayout ← parseIxLayout idl;
  st ← foldlM (loopBody ixLayout)
         {| ls_discriminatorLayouts := ∅; ls_ixDiscriminator := ∅;
            ls_discriminatorLength := None |}
         (instructions idl);
  Ok {| idl := idl;
        ixLayout := ixLayout;
        discriminatorLayouts := ls_discriminatorLayouts st;
        ixDiscriminator := ls_ixDiscriminator st;
        discriminatorLength := ls_discriminatorLength st |}.

Definition _encode (this : t) (nameSpace ixName : string) (ix : value) : result Buffer :=
  let buffer := Buffer_alloc 1000 in
  let methodName := camelCase ixName in
  match ixLayout this !! methodName, ixDiscriminator this !! methodName with
  | Some layout, Some discriminator =>
      '(len, buffer) ← layout_encode layout ix buffer;
      let data := subarray buffer 0 len in
      Ok (discriminator ++ data)
  | _, _ => Err (Error ("Unknown method: " +:+ methodName))
  end.

Definition encode (this : t) (ixName : string) (ix : value) : result Buffer :=
  _encode this SIGHASH_GLOBAL_NAMESPACE ixName ix.

Definition decode (this : t) (ix : IxInput) (encoding : Encoding)
    : result (option Instruction) :=
  ix ← match ix with
       | IxString s =>
           match encoding with hex => Ok (hex_decode s) | base58 => bs58_decode s end
       | IxBuffer b => Ok b
       end;
  (* [subarray(0, undefined)] and [subarray(undefined)] are the whole buffer *)
  let sighash :=
    bs58_encode (subarray ix 0 (default (length ix) (discriminatorLength this))) in
  let data := subarray_from ix (default 0 (discriminatorLength this)) in
  match discriminatorLayouts this !! sighash with
  | None => Ok None
  | Some decoder =>
      match layout decoder with
      | None => Err TypeError
      | Some layout =>
          d ← layout_decode layout data;
          Ok (Some {| data := d; name := decoder_name decoder |})
      end
  end.

Definition format (fuel : nat) (this : t) (ix : Instruction) (accountMetas : list AccountMeta)
    : result (option InstructionDisplay) :=
  InstructionFormatter.format fuel ix accountMetas (idl this).

End methods.

End BorshInstructionCoder.

(** * The imported packages, executable

    The properties below hold for every implementation of [Externals] that
    satisfies the laws they name.  This section gives one implementation, so
    that the coder can be run: Base58 and SHA-256 follow their definitions;
    the two case conversions follow the packages [no-case] and [camelcase]
    on strings of ASCII letters, digits and separators. *)

Definition byte_of_N (n : N) : byte := default x00 (Byte.of_N (n mod 256)).

Module Base58.

Definition ALPHABET : list ascii :=
  list_ascii_of_string "123456789ABCDEFGHJKLMNPQRSTUVWXYZabcdefghijkmnopqrstuvwxyz".

Definition LEADER : ascii := "1"%char.

(** The number a byte string denotes, most significant byte first. *)
Definition number (b : Buffer) : N :=
  foldl (fun acc x => (acc * 256 + Byte.to_N x)%N) 0%N b.

(** The base-58 digits of [n], most significant first; none for [0]. *)
Fixpoint digits (fuel : nat) (n : N) (acc : list N) : list N :=
  match fuel with
  | O => acc
  | S fuel => if (n =? 0)%N then acc else digits fuel (n / 58)%N ((n mod 58)%N :: acc)
  end.

Definition digitChar (d : N) : ascii := nth (N.to_nat d) ALPHABET LEADER.

(** The number of leading occurrences of [a]. *)
Fixpoint leading {A} `{EqDecision A} (a : A) (l : list A) : nat :=
  match l with
  | x :: rest => if decide (x = a) then S (leading a rest) else O
  | [] => O
  end.

Definition zeroes (b : Buffer) : nat := leading x00 b.

Definition encode (source : Buffer) : string :=
  let z := zeroes source in
  let n := number (drop z source) in
  string_of_list_ascii
    (replicate z LEADER ++ map digitChar (digits (2 * (length source - z)) n [])).

Definition charDigit (c : ascii) : option N :=
  N.of_nat <$> (fst <$> list_find (fun a => a = c) ALPHABET).

(** The bytes of [n], most significant first; none for [0]. *)
Fixpoint bytes (fuel : nat) (n : N) (acc : Buffer) : Buffer :=
  match fuel with
  | O => acc
  | S fuel => if (n =? 0)%N then acc else bytes fuel (n / 256)%N (byte_of_N n :: acc)
  end.

Definition decode (s : string) : result Buffer :=
  let cs := list_ascii_of_string s in
  match mapM charDigit cs with
  | None => Err (Error "Non-base58 character")
  | Some ds =>
      let z := leading LEADER cs in
      let n := foldl (fun acc d => (acc * 58 + d)%N) 0%N ds in
      Ok (replicate z x00 ++ bytes (length cs) n [])
  end.

(** Two notions for the proof that [encode] is injective: a byte string
    without a leading zero, and the number a list of digits stands for. *)
Definition trimmed (b : Buffer) : Prop := leading x00 b = 0%nat.

Definition number58 (ds : list N) : N := foldl (fun acc d => (acc * 58 + d)%N) 0%N ds.

End Base58.

Module Hex.

Definition digit (c : ascii) : option N :=
  let n := N_of_ascii c in
  if ((48 <=? n) && (n <=? 57))%N then Some (n - 48)%N
  else if ((97 <=? n) && (n <=? 102))%N then Some (n - 87)%N
  else if ((65 <=? n) && (n <=? 70))%N then Some (n - 55)%N
  else None.

(** [Buffer.from(s, "hex")]: pairs of digits, up to the first pair that is
    not hexadecimal. *)
Fixpoint decode (s : string) : Buffer :=
  match s with
  | String a (String b rest) =>
      match digit a, digit b with
      | Some x, Some y => byte_of_N (16 * x + y) :: decode rest
      | _, _ => []
      end
  | _ => []
  end.

End Hex.

(** The UTF-8 encoding of a string of code units below 256. *)
Definition utf8 (s : string) : Buffer :=
  flat_map (fun c =>
    let n := N_of_ascii c in
    if (n <? 128)%N then [byte_of_N n]
    else [byte_of_N (192 + n / 64); byte_of_N (128 + n mod 64)])
    (list_ascii_of_string s).

Module SHA256.

Local Open Scope N_scope.

Definition w32 (x : N) : N := x mod 2 ^ 32.
Definition add (x y : N) : N := w32 (x + y).
Definition rotr (n x : N) : N := N.lor (N.shiftr x n) (w32 (N.shiftl x (32 - n))).
Definition not32 (x : N) : N := N.lxor x 0xffffffff.

Definition Ch (x y z : N) : N := N.lxor (N.land x y) (N.land (not32 x) z).
Definition Maj (x y z : N) : N :=
  N.lxor (N.lxor (N.land x y) (N.land x z)) (N.land y z).
Definition Sigma0 (x : N) : N := N.lxor (N.lxor (rotr 2 x) (rotr 13 x)) (rotr 22 x).
Definition Sigma1 (x : N) : N := N.lxor (N.lxor (rotr 6 x) (rotr 11 x)) (rotr 25 x).
Definition sigma0 (x : N) : N := N.lxor (N.lxor (rotr 7 x) (rotr 18 x)) (N.shiftr x 3).
Definition sigma1 (x : N) : N := N.lxor (N.lxor (rotr 17 x) (rotr 19 x)) (N.shiftr x 10).

(** The first 64 primes. *)
Definition primes : list N :=
List.filter
  (fun n => forallb (fun d => negb (n mod d =? 0)) (map N.of_nat (seq 2 (N.to_nat n - 2))))
  (map N.of_nat (seq 2 310)).

(** The integer part of the root of degree [k] of a number below 2 ^ (40 k). *)
Definition root (k n : N) : N :=
foldl (fun r i => let c := r + 2 ^ N.of_nat i in if c ^ k <=? n then c else r)
  0 (reverse (seq 0 40)).

(** The round constants: the first 32 bits of the fractional parts of the
  cube roots of the primes. *)
Definition K : list N := map (fun p => w32 (root 3 (p * 2 ^ 96))) primes.

Record state := { sa : N; sb : N; sc : N; sd : N; se : N; sf : N; sg : N; sh : N }.

(** The initial state: the first 32 bits of the fractional parts of the
  square roots of the first eight primes. *)
Definition H0 : state :=
let h i := w32 (root 2 (nth i primes 0 * 2 ^ 64)) in
{| sa := h 0%nat; sb := h 1%nat; sc := h 2%nat; sd := h 3%nat;
   se := h 4%nat; sf := h 5%nat; sg := h 6%nat; sh := h 7%nat |}.

(** The message followed by the bit 1, zeros, and its length in bits on 64
    bits, a multiple of 64 bytes in all. *)
Definition pad (msg : list N) : list N :=
  let len := N.of_nat (length msg) in
  let zeros := N.to_nat ((119 - len mod 64) mod 64) in
  msg ++ [0x80] ++ replicate zeros 0
      ++ map (fun i => (N.shiftr (8 * len) (8 * (7 - N.of_nat i))) mod 256) (seq 0 8).

Fixpoint words (bs : list N) : list N :=
  match bs with
  | b0 :: b1 :: b2 :: b3 :: rest =>
      (b0 * 2 ^ 24 + b1 * 2 ^ 16 + b2 * 2 ^ 8 + b3) :: words rest
  | _ => []
  end.

(** The message schedule: [n] more words after the sixteen of the block. *)
Fixpoint schedule (n : nat) (w : list N) : list N :=
  match n with
  | O => w
  | S n =>
      let t := length w in
      let at_ i := nth (t - i) w 0 in
      schedule n (w ++ [add (add (sigma1 (at_ 2%nat)) (at_ 7%nat))
                            (add (sigma0 (at_ 15%nat)) (at_ 16%nat))])
  end.

Definition round (s : state) (kw : N * N) : state :=
  let t1 := add (add (add (sh s) (Sigma1 (se s))) (Ch (se s) (sf s) (sg s)))
                (add kw.1 kw.2) in
  let t2 := add (Sigma0 (sa s)) (Maj (sa s) (sb s) (sc s)) in
  {| sa := add t1 t2; sb := sa s; sc := sb s; sd := sc s;
     se := add (sd s) t1; sf := se s; sg := sf s; sh := sg s |}.

Definition compress (s : state) (block : list N) : state :=
  let r := foldl round s (zip K (schedule 48 block)) in
  {| sa := add (sa s) (sa r); sb := add (sb s) (sb r); sc := add (sc s) (sc r);
     sd := add (sd s) (sd r); se := add (se s) (se r); sf := add (sf s) (sf r);
     sg := add (sg s) (sg r); sh := add (sh s) (sh r) |}.

Fixpoint blocks (fuel : nat) (ws : list N) (s : state) : state :=
  match fuel with
  | O => s
  | S fuel =>
      match ws with
      | [] => s
      | _ => blocks fuel (drop 16 ws) (compress s (take 16 ws))
      end
  end.

Definition wordBytes (w : N) : Buffer :=
  [byte_of_N (N.shiftr w 24); byte_of_N (N.shiftr w 16); byte_of_N (N.shiftr w 8); byte_of_N w].

Definition hash (msg : Buffer) : Buffer :=
  let ws := words (pad (map Byte.to_N msg)) in
  let s := blocks (length ws) ws H0 in
  wordBytes (sa s) ++ wordBytes (sb s) ++ wordBytes (sc s) ++ wordBytes (sd s)
    ++ wordBytes (se s) ++ wordBytes (sf s) ++ wordBytes (sg s) ++ wordBytes (sh s).

(** [sha256.digest(s)] *)
Definition digest (s : string) : Buffer := hash (utf8 s).

End SHA256.

Definition isDigit09 (c : ascii) : bool :=
  ((48 <=? nat_of_ascii c) && (nat_of_ascii c <=? 57))%nat.
Definition isAlnum (c : ascii) : bool := isUpperAZ c || isLowerAZ c || isDigit09 c.

(** The package [snake-case]: [noCase] of [no-case] with the delimiter "_". *)
Module SnakeCase.

Definition NUL : ascii := "000"%char.

(** [replace(/([a-z0-9])([A-Z])/g, "$1\0$2")] *)
Fixpoint splitLowerUpper (s : list ascii) : list ascii :=
  match s with
  | a :: rest =>
      match rest with
      | b :: rest' =>
          if (isLowerAZ a || isDigit09 a) && isUpperAZ b
          then a :: NUL :: b :: splitLowerUpper rest'
          else a :: splitLowerUpper rest
      | [] => [a]
      end
  | [] => []
  end.

(** [replace(/([A-Z])([A-Z][a-z])/g, "$1\0$2")] *)
Fixpoint splitUpperWord (s : list ascii) : list ascii :=
  match s with
  | a :: rest =>
      match rest with
      | b :: c :: rest' =>
          if isUpperAZ a && isUpperAZ b && isLowerAZ c
          then a :: NUL :: b :: c :: splitUpperWord rest'
          else a :: splitUpperWord rest
      | _ => a :: splitUpperWord rest
      end
  | [] => []
  end.

(** [replace(/[^A-Z0-9]+/gi, "\0")]; [inRun] tells that the previous
    character was stripped. *)
Fixpoint strip (inRun : bool) (s : list ascii) : list ascii :=
  match s with
  | a :: rest =>
      if isAlnum a then a :: strip false rest
      else if inRun then strip true rest else NUL :: strip true rest
  | [] => []
  end.

Fixpoint trimStart (s : list ascii) : list ascii :=
  match s with
  | a :: rest => if decide (a = NUL) then trimStart rest else s
  | [] => []
  end.

Definition trim (s : list ascii) : list ascii :=
  reverse (trimStart (reverse (trimStart s))).

(** [split("\0").map(lowerCase).join("_")] *)
Definition joinLower (s : list ascii) : list ascii :=
  map (fun a => if decide (a = NUL) then "_"%char else toLowerChar a) s.

Definition snakeCase (input : string) : string :=
  string_of_list_ascii
    (joinLower (trim (strip false (splitUpperWord (splitLowerUpper
       (list_ascii_of_string input)))))).

End SnakeCase.

(** The package [camelcase] (version 6) on ASCII letters, digits and the
    separators "_", ".", "-" and " ". *)
Module CamelCase.

Definition isSeparator (c : ascii) : bool :=
  bool_decide (c = "_"%char) || bool_decide (c = "."%char)
  || bool_decide (c = "-"%char) || bool_decide (c = " "%char).
Definition isIdentifier (c : ascii) : bool := isAlnum c || bool_decide (c = "_"%char).

Fixpoint trimStart (s : list ascii) : list ascii :=
  match s with
  | a :: rest => if bool_decide (a = " "%char) then trimStart rest else s
  | [] => []
  end.
Definition trim (s : list ascii) : list ascii :=
  reverse (trimStart (reverse (trimStart s))).

(** [preserveCamelCase]: a "-" is put where a word starts.  [out] is the
    output so far, last character first. *)
Fixpoint preserveCamelCase (s : list ascii) (out : list ascii)
    (isLastCharLower isLastCharUpper isLastLastCharUpper : bool) : list ascii :=
  match s with
  | [] => reverse out
  | c :: rest =>
      if isLastCharLower && isUpperAZ c then
        preserveCamelCase rest (c :: "-"%char :: out) false true isLastCharUpper
      else if isLastCharUpper && isLastLastCharUpper && isLowerAZ c then
        match out with
        | u :: out' => preserveCamelCase rest (c :: u :: "-"%char :: out') true false false
        | [] => preserveCamelCase rest [c] true false false
        end
      else
        preserveCamelCase rest (c :: out) (isLowerAZ c) (isUpperAZ c) isLastCharUpper
  end.

Fixpoint dropSeparators (s : list ascii) : list ascii :=
  match s with
  | a :: rest => if isSeparator a then dropSeparators rest else s
  | [] => []
  end.

(** [replace(SEPARATORS_AND_IDENTIFIER, (_, id) => toUpperCase(id))];
    [afterSep] tells that a run of separators was just skipped. *)
Fixpoint upperAfterSeparators (afterSep : bool) (s : list ascii) : list ascii :=
  match s with
  | a :: rest =>
      if isSeparator a then upperAfterSeparators true rest
      else (if afterSep then toUpperChar a else a) :: upperAfterSeparators false rest
  | [] => []
  end.

(** [replace(NUMBERS_AND_IDENTIFIER, m => toUpperCase(m))] *)
Fixpoint upperAfterDigits (afterDigit : bool) (s : list ascii) : list ascii :=
  match s with
  | a :: rest =>
      (if afterDigit then toUpperChar a else a) :: upperAfterDigits (isDigit09 a) rest
  | [] => []
  end.

Definition upperFirst (s : list ascii) : list ascii :=
  match s with a :: rest => toUpperChar a :: rest | [] => [] end.

Definition convert (pascalCase : bool) (input : string) : string :=
  let input := trim (list_ascii_of_string input) in
  match input with
  | [] => ""
  | [c] =>
      if isSeparator c then ""
      else String (if pascalCase then toUpperChar c else toLowerChar c) ""
  | _ =>
      let hasUpperCase := existsb isUpperAZ input in
      let input :=
        if hasUpperCase then preserveCamelCase input [] false false false else input in
      let input := map toLowerChar (dropSeparators input) in
      let input := if pascalCase then upperFirst input else input in
      string_of_list_ascii (upperAfterDigits false (upperAfterSeparators false input))
  end.

Definition camelCase : string → string := convert false.
Definition camelCasePascal : string → string := convert true.

End CamelCase.

(** The names every array has, apart from its indices: [length] and the
    members of [Array.prototype] and [Object.prototype] that are not
    arrays themselves. *)
Definition arrayMembers : list string :=
  ["length"; "constructor"; "at"; "concat"; "copyWithin"; "entries"; "every"; "fill";
   "filter"; "find"; "findIndex"; "findLast"; "findLastIndex"; "flat"; "flatMap";
   "forEach"; "includes"; "indexOf"; "join"; "keys"; "lastIndexOf"; "map"; "pop";
   "push"; "reduce"; "reduceRight"; "reverse"; "shift"; "slice"; "some"; "sort";
   "splice"; "toLocaleString"; "toString"; "unshift"; "values"; "hasOwnProperty";
   "isPrototypeOf"; "propertyIsEnumerable"; "valueOf"].

#[global] Instance packages : Externals := {|
  camelCase := CamelCase.camelCase;
  camelCasePascal := CamelCase.camelCasePascal;
  snakeCase := SnakeCase.snakeCase;
  sha256_digest := SHA256.digest;
  bs58_encode := Base58.encode;
  bs58_decode := Base58.decode;
  hex_decode := Hex.decode;
  arrayInherits := fun key => bool_decide (key ∈ arrayMembers)
|}.

(** * The layouts of [coder/borsh/idl.ts], executable *)

Module IdlCoder.

Local Open Scope Z_scope.

(** Little-endian bytes of a number on [w] bytes, and back. *)
Definition le_bytes (w : nat) (n : Z) : Buffer :=
  map (fun i => byte_of_Z (n / 256 ^ Z.of_nat i)) (seq 0 w).
Definition le_value (b : Buffer) : Z :=
  foldr (fun x acc => Z.of_N (Byte.to_N x) + 256 * acc) 0 b.

(** Signedness and width in bytes of the integer primitives. *)
Definition integers : list (string * (bool * nat)) :=
  [("u8", (false, 1)); ("i8", (true, 1)); ("u16", (false, 2)); ("i16", (true, 2));
   ("u32", (false, 4)); ("i32", (true, 4)); ("u64", (false, 8)); ("i64", (true, 8));
   ("u128", (false, 16)); ("i128", (true, 16))]%nat.

Definition encodeInt (signed : bool) (w : nat) (v : value) : result Buffer :=
  match v with
  | VNum n =>
      let bits := 8 * Z.of_nat w in
      let lo := if signed then - 2 ^ (bits - 1) else 0 in
      let hi := if signed then 2 ^ (bits - 1) else 2 ^ bits in
      if (lo <=? n) && (n <? hi) then Ok (le_bytes w (n mod 2 ^ bits))
      else Err RangeError
  | _ => Err TypeError
  end.

Definition decodeInt (signed : bool) (w : nat) (b : Buffer) : result (value * Buffer) :=
  if (length b <? w)%nat then Err RangeError
  else
    let bits := 8 * Z.of_nat w in
    let n := le_value (take w b) in
    Ok (VNum (if signed && (2 ^ (bits - 1) <=? n) then n - 2 ^ bits else n), drop w b).

Definition lookupType (types : list IdlTypeDef) (defined : string) : result IdlTypeDef :=
  match filter (fun t => td_name t = defined) types with
  | [] => Err (Error ("Type not found: " +:+ defined))
  | t :: _ => Ok t
  end.

(** The fields of a structure, written one after the other; [ser] writes a
    value of a type. *)
Definition serFields (ser : IdlType → value → result Buffer)
    (fields : list IdlField) (v : value) : result Buffer :=
  bs ← mapM (fun f => fv ← getProp v (f_name f); ser (f_type f) fv) fields;
  Ok (concat bs).

(** [n] values read one after the other; [de] reads one. *)
Fixpoint deMany (de : Buffer → result (value * Buffer)) (n : nat) (b : Buffer)
    : result (list value * Buffer) :=
  match n with
  | O => Ok ([], b)
  | S n => '(v, b) ← de b; '(vs, b) ← deMany de n b; Ok (v :: vs, b)
  end.

(** The fields of a structure, read one after the other; [de] reads a value
    of a type. *)
Fixpoint deFields (de : IdlType → Buffer → result (value * Buffer))
    (fields : list IdlField) (b : Buffer) : result (list (string * value) * Buffer) :=
  match fields with
  | [] => Ok ([], b)
  | f :: rest =>
      '(v, b) ← de (f_type f) b;
      '(vs, b) ← deFields de rest b;
      Ok ((f_name f, v) :: vs, b)
  end.

Section codec.
Context `{Externals}.
Variable types : list IdlTypeDef.

(** Modelled from the spec: the check that every type reference of a
    field resolves, which the Type Resolver makes when a layout is
    built (section 4.1; an unresolved name is a configuration error,
    section 7).  The expansion of a type that refers to itself does not
    end (section 9): the budget runs out. *)
Fixpoint resolve (fuel : nat) (ty : IdlType) : result unit :=
  match fuel with
  | O => Err OutOfFuel
  | S fuel =>
      match ty with
      | IdlTypePrim label =>
          if bool_decide (label = "bool") || bool_decide (is_Some (assoc label integers))
          then Ok tt else Err (Error ("Not yet implemented: " +:+ label))
      | IdlTypeVec t | IdlTypeOption t | IdlTypeArray t _ => resolve fuel t
      | IdlTypeDefined defined =>
          t ← lookupType types defined;
          match td_type t with
          | IdlTypeDefTyStruct fields =>
              _ ← mapM (fun f => resolve fuel (f_type f)) fields; Ok tt
          | IdlTypeDefTyEnum variants =>
              _ ← mapM (fun v =>
                match v_fields v with
                | None => Ok tt
                | Some (IdlEnumFieldsNamed fields) =>
                    _ ← mapM (fun f => resolve fuel (f_type f)) fields; Ok tt
                | Some (IdlEnumFieldsTuple tys) =>
                    _ ← mapM (resolve fuel) tys; Ok tt
                end) variants; Ok tt
          end
      | IdlTypeOther => Err (Error "Not yet implemented: [object Object]")
      end
  end.

(** The fields of a tuple variant take the keys "0", "1", ... *)
Definition tupleFields (tys : list IdlType) : list IdlField :=
  imap (fun i t => {| f_name := pretty i; f_type := t |}) tys.

Definition variantFields (v : IdlEnumVariant) : list IdlField :=
  match v_fields v with
  | None => []
  | Some (IdlEnumFieldsNamed fields) => fields
  | Some (IdlEnumFieldsTuple tys) => tupleFields tys
  end.

(** Modelled from the spec: the bytes of a value of a type (section 4.1):
    fixed-width little-endian integers, one byte for a boolean, a count
    on 32 bits before the elements of a vector, one byte 0 or 1 before an
    optional value, the elements of an array back to back, the fields of
    a struct in order, the index of the variant on one byte before the
    payload of an enum. *)
Fixpoint ser (fuel : nat) (ty : IdlType) (v : value) : result Buffer :=
  match fuel with
  | O => Err OutOfFuel
  | S fuel =>
      match ty with
      | IdlTypePrim label =>
          if bool_decide (label = "bool") then
            match v with
            | VBool true => Ok [x01]
            | VBool false => Ok [x00]
            | _ => Err TypeError
            end
          else
            match assoc label integers with
            | Some (signed, w) => encodeInt signed w v
            | None => Err (Error ("Not yet implemented: " +:+ label))
            end
      | IdlTypeVec t =>
          match v with
          | VArr elems =>
              bs ← mapM (ser fuel t) elems;
              if Z.of_nat (length elems) <? 2 ^ 32
              then Ok (le_bytes 4 (Z.of_nat (length elems)) ++ concat bs)
              else Err RangeError
          | _ => Err TypeError
          end
      | IdlTypeOption t =>
          match v with
          | VNull | VUndefined => Ok [x00]
          | _ => b ← ser fuel t v; Ok (x01 :: b)
          end
      | IdlTypeArray t n =>
          match v with
          | VArr elems =>
              if bool_decide (length elems = N.to_nat n)
              then bs ← mapM (ser fuel t) elems; Ok (concat bs)
              else Err (Error "array length mismatch")
          | _ => Err TypeError
          end
      | IdlTypeDefined defined =>
          t ← lookupType types defined;
          match td_type t with
          | IdlTypeDefTyStruct fields => serFields (ser fuel) fields v
          | IdlTypeDefTyEnum variants =>
              keys ← objectKeys v;
              match keys with
              | [] => Err (Error "unable to infer src variant")
              | key :: _ =>
                  match list_find (fun var => camelCase (v_name var) = key) variants with
                  | None => Err (Error "unable to infer src variant")
                  | Some (i, var) =>
                      payload ← getProp v key;
                      b ← serFields (ser fuel) (variantFields var) payload;
                      if Z.of_nat i <? 256 then Ok (byte_of_Z (Z.of_nat i) :: b)
                      else Err RangeError
                  end
              end
          end
      | IdlTypeOther => Err (Error "Not yet implemented: [object Object]")
      end
  end.

(** Modelled from the spec: the value at the start of a buffer and the
    bytes after it (section 4.1); too few bytes, a tag that is neither 0
    nor 1 and a variant index outside the enum are errors (section 7). *)
Fixpoint de (fuel : nat) (ty : IdlType) (b : Buffer) : result (value * Buffer) :=
  match fuel with
  | O => Err OutOfFuel
  | S fuel =>
      match ty with
      | IdlTypePrim label =>
          if bool_decide (label = "bool") then
            match b with
            | x :: rest =>
                if decide (x = x00) then Ok (VBool false, rest)
                else if decide (x = x01) then Ok (VBool true, rest)
                else Err (Error "Invalid bool")
            | [] => Err RangeError
            end
          else
            match assoc label integers with
            | Some (signed, w) => decodeInt signed w b
            | None => Err (Error ("Not yet implemented: " +:+ label))
            end
      | IdlTypeVec t =>
          '(n, b) ← decodeInt false 4 b;
          match n with
          | VNum n => '(vs, b) ← deMany (de fuel t) (Z.to_nat n) b; Ok (VArr vs, b)
          | _ => Err TypeError
          end
      | IdlTypeOption t =>
          match b with
          | x :: rest =>
              if decide (x = x00) then Ok (VNull, rest)
              else if decide (x = x01) then de fuel t rest
              else Err (Error "Invalid option")
          | [] => Err RangeError
          end
      | IdlTypeArray t n =>
          '(vs, b) ← deMany (de fuel t) (N.to_nat n) b; Ok (VArr vs, b)
      | IdlTypeDefined defined =>
          t ← lookupType types defined;
          match td_type t with
          | IdlTypeDefTyStruct fields =>
              '(vs, b) ← deFields (de fuel) fields b; Ok (VObj vs, b)
          | IdlTypeDefTyEnum variants =>
              match b with
              | x :: rest =>
                  match variants !! N.to_nat (Byte.to_N x) with
                  | Some var =>
                      '(vs, b) ← deFields (de fuel) (variantFields var) rest;
                      Ok (VObj [(camelCase (v_name var), VObj vs)], b)
                  | None => Err (Error "Invalid enum variant")
                  end
              | [] => Err RangeError
              end
          end
      | IdlTypeOther => Err (Error "Not yet implemented: [object Object]")
      end
  end.

End codec.

(** The layout of a pair of functions: [encode] writes the bytes of the
    value when the buffer has room for them. *)
Definition layoutOf (property : option string)
    (ser : value → result Buffer) (de : Buffer → result (value * Buffer)) : Layout :=
  {| property := property;
     layout_encode := fun src b =>
       bytes ← ser src;
       if (length b <? length bytes)%nat then Err RangeError
       else Ok (length bytes, bytes ++ drop (length bytes) b);
     layout_decode := fun b => '(v, _) ← de b; Ok v;
     layout_getSpan := fun b => '(_, rest) ← de b; Ok (length b - length rest)%nat |}.

(** How deep type definitions may nest in the model. *)
Definition depth : nat := 64.
#[global] Opaque depth.

(** Modelled from the spec: [IdlCoder.fieldLayout(field, types)], the Type
    Resolver (section 4.1).  The textual, byte-string, public-key and
    floating-point primitives are not modelled; a field of such a type
    does not resolve. *)
Definition fieldLayout `{Externals} (field : IdlField) (types : list IdlTypeDef)
    : result Layout :=
  _ ← resolve types depth (f_type field);
  Ok (layoutOf (Some (f_name field))
        (ser types depth (f_type field)) (de types depth (f_type field))).

(** Modelled from the spec: [borsh.struct(fields, property)], the
    composition of an ordered list of named layouts (section 6): the
    fields are written and read one after the other. *)
Fixpoint structEncode (fields : list Layout) (src : value) (b : Buffer)
    : result (nat * Buffer) :=
  match fields with
  | [] => Ok (O, b)
  | fd :: rest =>
      fv ← getProp src (default "undefined" (property fd));
      '(n, b1) ← layout_encode fd fv b;
      '(m, b2) ← structEncode rest src (drop n b1);
      Ok ((n + m)%nat, take n b1 ++ b2)
  end.

Fixpoint structDecode (fields : list Layout) (b : Buffer)
    : result (list (string * value) * nat) :=
  match fields with
  | [] => Ok ([], O)
  | fd :: rest =>
      v ← layout_decode fd b;
      n ← layout_getSpan fd b;
      '(vs, m) ← structDecode rest (drop n b);
      Ok ((default "undefined" (property fd), v) :: vs, (n + m)%nat)
  end.

Definition struct (fields : list Layout) (property : string) : Layout :=
  {| property := Some property;
     layout_encode := structEncode fields;
     layout_decode := fun b => '(vs, _) ← structDecode fields b; Ok (VObj vs);
     layout_getSpan := fun b => '(_, n) ← structDecode fields b; Ok n |}.


End IdlCoder.

#[global] Instance layouts `{Externals} : LayoutLib := {|
  fieldLayout := IdlCoder.fieldLayout;
  struct := IdlCoder.struct
|}.

(** * The words of the specification, and examples *)

(** The label of a type as the specification words it: the label of the
    element type is computed recursively under every constructor. *)
Fixpoint spec_label (t : IdlType) : string :=
  match t with
  | IdlTypePrim label => label
  | IdlTypeVec t => "Vec<" +:+ spec_label t +:+ ">"
  | IdlTypeOption t => "Option<" +:+ spec_label t +:+ ">"
  | IdlTypeDefined name => name
  | IdlTypeArray t n => "Array<" +:+ spec_label t +:+ "; " +:+ pretty n +:+ ">"
  | IdlTypeOther => ""
  end.

(** The types on which the source computes the specified label: every
    array has elements of a primitive type, and every node is one of the
    five kinds. *)
Fixpoint flat_arrays (t : IdlType) : bool :=
  match t with
  | IdlTypePrim _ | IdlTypeDefined _ => true
  | IdlTypeVec t | IdlTypeOption t => flat_arrays t
  | IdlTypeArray (IdlTypePrim _) _ => true
  | IdlTypeArray _ _ => false
  | IdlTypeOther => false
  end.

(** The display names of the leaves of an account, as the specification
    words them: the names of the enclosing groups, outermost first, and the
    leaf's own name, each converted by [sentenceCase], joined with " > ". *)
Fixpoint spec_accountNames (ancestors : list string) (account : IdlAccountItem)
    : list string :=
  match account with
  | IdlAccount n _ _ => [String.concat " > " (map sentenceCase (ancestors ++ [n]))]
  | IdlAccounts n accounts => concat (map (spec_accountNames (ancestors ++ [n])) accounts)
  end.

(** A path without its leading empty segments. *)
Fixpoint dropEmpty (segments : list string) : list string :=
  match segments with
  | EmptyString :: rest => dropEmpty rest
  | _ => segments
  end.

(** The display names the source gives: as above, except that the leading
    groups whose name is empty do not count. *)
Fixpoint accountNames (ancestors : list string) (account : IdlAccountItem)
    : list string :=
  match account with
  | IdlAccount n _ _ =>
      [String.concat " > " (dropEmpty (map sentenceCase ancestors) ++ [sentenceCase n])]
  | IdlAccounts n accounts => concat (map (accountNames (ancestors ++ [n])) accounts)
  end.

(** What [prefix] holds below the groups [ancestors]: nothing that counts
    while all of them have an empty name, else their path. *)
Definition prefixFor (ancestors : list string) (prefix : option string) : Prop :=
  match dropEmpty (map sentenceCase ancestors) with
  | [] => truthy prefix = false
  | path => prefix = Some (String.concat " > " path)
  end.

(** Every group of the tree has a name. *)
Fixpoint groupsNamed (account : IdlAccountItem) : bool :=
  match account with
  | IdlAccount _ _ _ => true
  | IdlAccounts n accounts =>
      negb (String.eqb n "") && forallb groupsNamed accounts
  end.

(** The two tables the loop of the constructor fills, as folds over the
    instructions. *)
Definition decodersOf `{Externals} (ixLayout : gmap string Layout)
    (ixs : list IdlInstruction) (m : gmap string BorshInstructionCoder.Decoder)
    : gmap string BorshInstructionCoder.Decoder :=
  foldl (fun m ix =>
    <[bs58_encode (BorshInstructionCoder.discriminatorOf ix).1 :=
        {| BorshInstructionCoder.layout := ixLayout !! ix_name ix;
           BorshInstructionCoder.decoder_name := ix_name ix |}]> m) m ixs.

Definition discriminatorsOf `{Externals} (ixs : list IdlInstruction)
    (m : gmap string Buffer) : gmap string Buffer :=
  foldl (fun m ix => <[ix_name ix := (BorshInstructionCoder.discriminatorOf ix).1]> m) m ixs.

(** What [encode(v, b)] does when the bytes of [v] under the layout are
    [bytes]: it writes them at the start of a buffer that has room for them
    and returns their number, and it throws on a shorter buffer. *)
Definition Writes (l : Layout) (v : value) (bytes : Buffer) : Prop :=
  ∀ b : Buffer,
    (length bytes ≤ length b →
     layout_encode l v b = Ok (length bytes, bytes ++ drop (length bytes) b))
    ∧ (length b < length bytes → ∃ e, layout_encode l v b = Err e).

(** ** Values that match a type (section 4.1) *)

(** The numbers an integer type holds. *)
Definition inRange (signed : bool) (w : nat) (n : Z) : Prop :=
  let bits := (8 * Z.of_nat w)%Z in
  if signed then 0 < w ∧ (- 2 ^ (bits - 1) ≤ n < 2 ^ (bits - 1))%Z
  else (0 ≤ n < 2 ^ bits)%Z.

(** An object with exactly the given fields, in their order, each value
    matching the type of its field. *)
Definition matchesFields (matches : IdlType → value → Prop)
    (fields : list IdlField) (v : value) : Prop :=
  NoDup (map f_name fields)
  ∧ ∃ vs, v = VObj (zip (map f_name fields) vs)
          ∧ Forall2 (fun f x => matches (f_type f) x) fields vs.

(** The values of a type: a number in range, a boolean, an array of
    values of the element type (below 2 ^ 32 of them for a vector, as many as
    declared for an array), [null] or a value of the inner type, an object
    with the fields of the struct, an object with the key of one variant
    and the fields of that variant. *)
Fixpoint matches `{Externals} (types : list IdlTypeDef) (fuel : nat)
    (ty : IdlType) (v : value) : Prop :=
  match fuel with
  | O => False
  | S fuel =>
      match ty with
      | IdlTypePrim label =>
          if bool_decide (label = "bool") then ∃ b, v = VBool b
          else match assoc label IdlCoder.integers with
               | Some (signed, w) => ∃ n, v = VNum n ∧ inRange signed w n
               | None => False
               end
      | IdlTypeVec t =>
          ∃ elems, v = VArr elems ∧ (Z.of_nat (length elems) < 2 ^ 32)%Z
                   ∧ Forall (matches types fuel t) elems
      | IdlTypeOption t =>
          v = VNull ∨ (v ≠ VNull ∧ v ≠ VUndefined ∧ matches types fuel t v)
      | IdlTypeArray t n =>
          ∃ elems, v = VArr elems ∧ length elems = N.to_nat n
                   ∧ Forall (matches types fuel t) elems
      | IdlTypeDefined defined =>
          ∃ t, IdlCoder.lookupType types defined = Ok t
               ∧ match td_type t with
                 | IdlTypeDefTyStruct fields =>
                     matchesFields (matches types fuel) fields v
                 | IdlTypeDefTyEnum variants =>
                     ∃ i var payload,
                       list_find (fun var' => camelCase (v_name var') = camelCase (v_name var))
                         variants = Some (i, var)
                       ∧ i < 256
                       ∧ v = VObj [(camelCase (v_name var), payload)]
                       ∧ matchesFields (matches types fuel)
                           (IdlCoder.variantFields var) payload
                 end
      | IdlTypeOther => False
      end
  end.


(** The names the case conversions are modelled on: ASCII characters only. *)
Definition isAscii (s : string) : bool :=
  forallb (fun c => (nat_of_ascii c <? 128)%nat) (list_ascii_of_string s).

(** The capital letters of a string, counted. *)
Fixpoint capitals (s : string) : nat :=
  match s with
  | EmptyString => 0
  | String c rest => (if isUpperAZ c then 1 else 0) + capitals rest
  end.

(** The flags of the leaves of an account, in order. *)
Fixpoint leafFlags (account : IdlAccountItem) : list (bool * bool) :=
  match account with
  | IdlAccount _ isMut isSigner => [(isMut, isSigner)]
  | IdlAccounts _ accounts => concat (map leafFlags accounts)
  end.


Module Examples.

(** The enum of section 8.6: a unit variant and a struct variant. *)
Definition State : IdlTypeDef :=
  {| td_name := "State";
     td_type := IdlTypeDefTyEnum
       [ {| v_name := "Idle"; v_fields := None |};
         {| v_name := "Running";
            v_fields := Some (IdlEnumFieldsNamed
              [ {| f_name := "progress"; f_type := IdlTypePrim "u8" |} ]) |} ] |}.

Definition stateField : IdlField :=
  {| f_name := "state"; f_type := IdlTypeDefined "State" |}.

Definition idle : value := VObj [("idle", VObj [])].
Definition running42 : value := VObj [("running", VObj [("progress", VNum 42)])].

(** The accounts of section 8.7. *)
Definition authorityAccounts : list IdlAccountItem :=
  [ IdlAccounts "authority" [ IdlAccount "owner" false true; IdlAccount "payer" true true ];
    IdlAccount "systemProgram" false false ].

Definition key (n : Z) : Buffer := replicate 32 (byte_of_Z n).

Definition fourMetas : list AccountMeta :=
  [ {| pubkey := key 1; isSigner := true; isWritable := false |};
    {| pubkey := key 2; isSigner := true; isWritable := true |};
    {| pubkey := key 3; isSigner := false; isWritable := false |};
    {| pubkey := key 4; isSigner := false; isWritable := true |} ].

Definition transfer : IdlInstruction :=
  {| ix_name := "transfer";
     ix_accounts := authorityAccounts;
     ix_args := [ {| f_name := "amount"; f_type := IdlTypePrim "u64" |};
                  {| f_name := "memo"; f_type := IdlTypeVec (IdlTypePrim "u8") |} ];
     ix_discriminant := None |}.

Definition initialize : IdlInstruction :=
  {| ix_name := "initialize"; ix_accounts := []; ix_args := []; ix_discriminant := None |}.

Definition transferIdl : Idl :=
  {| instructions := [initialize; transfer]; accounts := None; types := Some [State] |}.

Definition transferArgs : value :=
  VObj [("amount", VNum 1000); ("memo", VArr [VNum 104; VNum 105])].


(** An instruction with an empty discriminant, followed by one without a
    declared discriminant. *)
Definition ping : IdlInstruction :=
  {| ix_name := "ping"; ix_accounts := [];
     ix_args := [ {| f_name := "count"; f_type := IdlTypePrim "u64" |} ];
     ix_discriminant := Some {| disc_value := [] |} |}.

Definition pingIdl : Idl :=
  {| instructions := [ping; initialize]; accounts := None; types := None |}.

(** The first three bytes of the discriminator of [initialize]. *)
Definition shortBuffer : Buffer := Buffer_from [175; 175; 109]%Z.

(** An instruction whose name is in snake case. *)
Definition snakeIdl : Idl :=
  {| instructions :=
       [ {| ix_name := "do_thing"; ix_accounts := []; ix_args := [];
            ix_discriminant := None |} ];
     accounts := None; types := None |}.

(** Two instructions with one declared discriminant. *)
Definition twinIdl : Idl :=
  {| instructions :=
       [ {| ix_name := "first"; ix_accounts := []; ix_args := [];
            ix_discriminant := Some {| disc_value := [1]%Z |} |};
         {| ix_name := "second"; ix_accounts := []; ix_args := [];
            ix_discriminant := Some {| disc_value := [1]%Z |} |} ];
     accounts := None; types := None |}.


(** The bytes of the arguments of section 8.1: the amount on eight bytes,
    the length of the memo on four, the memo. *)
Definition transferBytes : Buffer :=
  Buffer_from [232; 3; 0; 0; 0; 0; 0; 0; 2; 0; 0; 0; 104; 105]%Z.

(** A declared discriminant of one byte after a discriminator of eight. *)
Definition close : IdlInstruction :=
  {| ix_name := "close"; ix_accounts := []; ix_args := [];
     ix_discriminant := Some {| disc_value := [1]%Z |} |}.

Definition mixedIdl : Idl :=
  {| instructions := [initialize; close]; accounts := None; types := None |}.

(** An IDL without instructions. *)
Definition emptyIdl : Idl := {| instructions := []; accounts := None; types := None |}.

(** An argument of a type that no table defines. *)
Definition move : IdlInstruction :=
  {| ix_name := "move"; ix_accounts := [];
     ix_args := [ {| f_name := "to"; f_type := IdlTypeDefined "Point" |} ];
     ix_discriminant := None |}.

Definition moveIdl : Idl := {| instructions := [move]; accounts := None; types := None |}.

(** A struct of two coordinates. *)
Definition Point : IdlTypeDef :=
  {| td_name := "Point";
     td_type := IdlTypeDefTyStruct
       [ {| f_name := "x"; f_type := IdlTypePrim "u8" |};
         {| f_name := "y"; f_type := IdlTypePrim "u8" |} ] |}.


End Examples.

(** * Properties *)

(** ** The result monad *)

Lemma bind_Ok {A B} (r : result A) (f : A → result B) (b : B) :
  r ≫= f = Ok b ↔ ∃ a, r = Ok a ∧ f a = Ok b.
Proof.
  destruct r as [a|e]; simpl; split.
  - intros Hf. by exists a.
  - by intros (a' & [= <-] & Hf).
  - intros [=].
  - by intros (a' & [=] & _).
Qed.

Lemma result_bind_Ok {A B} (a : A) (f : A → result B) : Ok a ≫= f = f a.
Proof. reflexivity. Qed.

Lemma result_bind_Err {A B} (e : exn) (f : A → result B) : Err e ≫= f = Err e.
Proof. reflexivity. Qed.

Lemma mapM_Ok_nil {A B} (f : A → result B) : mapM f [] = Ok [].
Proof. reflexivity. Qed.

Lemma mapM_cons {A B} (f : A → result B) (a : A) (l : list A) :
  mapM f (a :: l) = y ← f a; k ← mapM f l; Ok (y :: k).
Proof. reflexivity. Qed.

(** When every call returns, [mapM] is [map]. *)
Lemma mapM_total {A B} (f : A → result B) (g : A → B) (l : list A) :
  (∀ a, a ∈ l → f a = Ok (g a)) → mapM f l = Ok (map g l).
Proof.
  induction l as [|a l IH]; intros Hf; [done|].
  rewrite mapM_cons, (Hf a) by left. simpl.
  rewrite IH; [done|]. intros b Hb. apply Hf. by right.
Qed.

(** The first call that throws decides the outcome of [mapM]. *)
Lemma mapM_first_throws {A B} (f : A → result B) (a : A) (l : list A) (e : exn) :
  f a = Err e → mapM f (a :: l) = Err e.
Proof. intros Hf. by rewrite mapM_cons, Hf. Qed.

(** ** Type labels *)

Import InstructionFormatter.

(** X8: on a type whose arrays have elements of a primitive type, the label
    is built from the labels of the types inside: the primitive's own label,
    "Vec<" label ">", "Option<" label ">", the name of a defined type,
    "Array<" label "; " n ">". *)
Lemma formatIdlType_spec_label (t : IdlType) :
  flat_arrays t = true → formatIdlType t = Ok (spec_label t).
Proof.
  induction t as [label|t IH|t IH|name|t IH n|]; simpl; intros Hflat; try done.
  - by rewrite IH.
  - by rewrite IH.
  - by destruct t.
Qed.

Lemma formatIdlType_array (t : IdlType) (n : N) :
  formatIdlType (IdlTypeArray t n)
  = Ok ("Array<" +:+ templateOfType t +:+ "; " +:+ pretty n +:+ ">").
Proof. reflexivity. Qed.

(** C9, where the source departs from it: the label of an array is built
    from the text of the element type, not from its label.  An array of a
    vector, an option, a defined type or an array is labelled
    "Array<[object Object]; n>"; for three elements of the defined type Foo
    the specified label is "Array<Foo; 3>". *)
Theorem formatIdlType_array_of_compound :
  (∀ (t : IdlType) (name : string) (n m : N),
     let label := Ok ("Array<[object Object]; " +:+ pretty n +:+ ">") in
     formatIdlType (IdlTypeArray (IdlTypeVec t) n) = label
     ∧ formatIdlType (IdlTypeArray (IdlTypeOption t) n) = label
     ∧ formatIdlType (IdlTypeArray (IdlTypeDefined name) n) = label
     ∧ formatIdlType (IdlTypeArray (IdlTypeArray t m) n) = label)
  ∧ formatIdlType (IdlTypeArray (IdlTypeDefined "Foo") 3) = Ok "Array<[object Object]; 3>"
  ∧ spec_label (IdlTypeArray (IdlTypeDefined "Foo") 3) = "Array<Foo; 3>".
Proof. by repeat split. Qed.

(** ** Rendering of values *)

Lemma assoc_head {A} (key : string) (a : A) (props : list (string * A)) :
  assoc key ((key, a) :: props) = Some a.
Proof. simpl. by rewrite String.eqb_refl. Qed.

Lemma getProp_head (key : string) (v : value) (props : list (string * value)) :
  getProp (VObj ((key, v) :: props)) key = Ok v.
Proof. unfold getProp. by rewrite assoc_head. Qed.

(** A vector is rendered between brackets, its elements joined by ", ";
    every element is rendered by [formatIdlData] itself, called without the
    table of defined types. *)
Lemma formatIdlData_vec `{Externals} (fuel : nat) (name : string) (t : IdlType)
    (elems : list value) (types : option (list IdlTypeDef)) :
  formatIdlData (S fuel) {| f_name := name; f_type := IdlTypeVec t |} (VArr elems) types
  = strs ← mapM (fun d => formatIdlData fuel {| f_name := ""; f_type := t |} d None) elems;
    Ok ("[" +:+ String.concat ", " strs +:+ "]").
Proof. reflexivity. Qed.

(** An optional value, by contrast, is rendered with the table. *)
Lemma formatIdlData_option `{Externals} (fuel : nat) (name : string) (t : IdlType)
    (data : value) (types : option (list IdlTypeDef)) :
  data ≠ VNull →
  formatIdlData (S fuel) {| f_name := name; f_type := IdlTypeOption t |} data types
  = formatIdlData fuel {| f_name := ""; f_type := t |} data types.
Proof. intros Hdata. by destruct data. Qed.

Lemma formatIdlData_defined_no_types `{Externals} (fuel : nat) (name defined : string)
    (data : value) :
  formatIdlData (S fuel) {| f_name := name; f_type := IdlTypeDefined defined |} data None
  = Err (Error "User defined types not provided").
Proof. reflexivity. Qed.

(** X9: a vector of numbers, strings or booleans is rendered as the list of
    their texts, joined by ", " between brackets. *)
Lemma formatIdlData_vec_of_primitives `{Externals} (fuel : nat) (name label : string)
    (elems : list value) (types : option (list IdlTypeDef)) :
  Forall (fun d => d ≠ VNull ∧ d ≠ VUndefined) elems →
  formatIdlData (S (S fuel)) {| f_name := name; f_type := IdlTypeVec (IdlTypePrim label) |}
    (VArr elems) types
  = Ok ("[" +:+ String.concat ", " (map toStr elems) +:+ "]").
Proof.
  intros Helems. rewrite formatIdlData_vec.
  rewrite (mapM_total _ toStr); [done|].
  intros d Hd. rewrite Forall_forall in Helems.
  destruct (Helems d Hd) as [Hnull Hundef]. by destruct d.
Qed.

(** C7, where the source departs from it: the elements of a vector are
    rendered without the table of defined types, so a vector of a defined
    type that has at least one element is not rendered: the formatter throws
    "User defined types not provided", although the table was supplied. *)
Theorem formatIdlData_vec_of_defined_throws `{Externals} :
  ∀ (fuel : nat) (name defined : string) (d : value) (ds : list value)
    (types : list IdlTypeDef),
    formatIdlData (S (S fuel))
      {| f_name := name; f_type := IdlTypeVec (IdlTypeDefined defined) |}
      (VArr (d :: ds)) (Some types)
    = Err (Error "User defined types not provided").
Proof.
  intros. rewrite formatIdlData_vec.
  erewrite mapM_first_throws; [done|]. apply formatIdlData_defined_no_types.
Qed.

(** ** Enum values *)

Section enum_values.
Context `{Externals}.
Variables (fuel : nat) (tname : string) (c : ascii) (s : string)
    (vf : option IdlEnumFields) (variants : list IdlEnumVariant)
    (types : list IdlTypeDef).

(** An enum whose first variant has a name. *)
Let typeDef : IdlTypeDef :=
    {| td_name := tname;
       td_type := IdlTypeDefTyEnum ({| v_name := String c s; v_fields := vf |} :: variants) |}.

(** A variant without fields is rendered by its name in Pascal case. *)
Lemma formatIdlDataDefined_unit_variant (variant : string) :
    formatIdlDataDefined (formatIdlData fuel) typeDef (VObj [(variant, VObj [])]) types
    = Ok (camelCasePascal variant).
Proof.
    unfold formatIdlDataDefined, typeDef. simpl td_type. cbv iota. simpl truthy. cbv iota.
    simpl objectKeys. simpl. by rewrite String.eqb_refl.
Qed.

(** A variant with at least one field is not rendered: the lookup of its
      fields indexes the array of variants by the variant's name. *)
Lemma formatIdlDataDefined_struct_variant_throws
      (variant f : string) (fd : value) (fields : list (string * value)) :
    formatIdlDataDefined (formatIdlData fuel) typeDef
      (VObj [(variant, VObj ((f, fd) :: fields))]) types
    = Err (Error "Unable to find variant")
    ∨ formatIdlDataDefined (formatIdlData fuel) typeDef
        (VObj [(variant, VObj ((f, fd) :: fields))]) types
      = Err TypeError.
Proof.
    unfold formatIdlDataDefined, typeDef. simpl td_type. cbv iota. simpl truthy. cbv iota.
    simpl objectKeys. rewrite result_bind_Ok. simpl head. simpl default.
    rewrite getProp_head, result_bind_Ok. simpl objectKeys.
    rewrite result_bind_Ok, mapM_cons, getProp_head, result_bind_Ok.
    destruct (arrayGet _ variant); auto.
Qed.
End enum_values.

(** C6, where the source departs from it: a variant without fields is
    rendered by its name in Pascal case, here "Idle"; a variant that carries
    fields is not rendered, the formatter throws "Unable to find variant"
    where the specification has "Running { progress: 42 }". *)
Theorem formatIdlData_enum_State :
  ∀ fuel : nat,
    formatIdlData (S fuel) Examples.stateField Examples.idle (Some [Examples.State])
    = Ok "Idle"
    ∧ formatIdlData (S fuel) Examples.stateField Examples.running42 (Some [Examples.State])
      = Err (Error "Unable to find variant").
Proof.
  intros fuel. split.
  - exact (formatIdlDataDefined_unit_variant fuel "State" "I" "dle" None
             (tail (match td_type Examples.State with
                    | IdlTypeDefTyEnum variants => variants
                    | _ => []
                    end))
             [Examples.State] "idle").
  - destruct (formatIdlDataDefined_struct_variant_throws fuel "State" "I" "dle" None
                (tail (match td_type Examples.State with
                       | IdlTypeDefTyEnum variants => variants
                       | _ => []
                       end))
                [Examples.State] "running" "progress" (VNum 42) []) as [Herr|Herr];
      [exact Herr|].
    by vm_compute in Herr.
Qed.

(** ** Account names *)

Lemma IdlAccountItem_nested_ind (P : IdlAccountItem → Prop) :
  (∀ n isMut isSigner, P (IdlAccount n isMut isSigner)) →
  (∀ n accounts, Forall P accounts → P (IdlAccounts n accounts)) →
  ∀ account, P account.
Proof.
  intros Hleaf Hgroup. fix IH 1. intros [n isMut isSigner|n accounts].
  - apply Hleaf.
  - apply Hgroup. induction accounts as [|a accounts IHaccounts]; constructor.
    + apply IH.
    + exact IHaccounts.
Qed.

Lemma string_app_cons (c : ascii) (s t : string) : String c s +:+ t = String c (s +:+ t).
Proof. reflexivity. Qed.

Lemma string_app_assoc (s t u : string) : (s +:+ t) +:+ u = s +:+ (t +:+ u).
Proof. induction s as [|c s IH]; [done|]. rewrite !string_app_cons. by f_equal. Qed.

Lemma concat_snoc (sep : string) (l : list string) (x : string) :
  l ≠ [] → String.concat sep (l ++ [x]) = String.concat sep l +:+ sep +:+ x.
Proof.
  induction l as [|a l IH]; [done|]. intros _.
  destruct l as [|b l].
  - simpl. reflexivity.
  - change (a +:+ sep +:+ String.concat sep ((b :: l) ++ [x])
            = (a +:+ sep +:+ String.concat sep (b :: l)) +:+ sep +:+ x).
    rewrite IH by done. by rewrite !string_app_assoc.
Qed.

Lemma dropEmpty_snoc (l : list string) (x : string) :
  dropEmpty l ≠ [] → dropEmpty (l ++ [x]) = dropEmpty l ++ [x].
Proof.
  induction l as [|a l IH]; [done|]. destruct a; simpl; [exact IH|done].
Qed.

Lemma dropEmpty_snoc_nil (l : list string) (x : string) :
  dropEmpty l = [] → dropEmpty (l ++ [x]) = dropEmpty [x].
Proof.
  induction l as [|a l IH]; [done|]. destruct a; simpl; [exact IH|done].
Qed.

Lemma dropEmpty_head (l : list string) :
  dropEmpty l ≠ [] → ∃ c s rest, dropEmpty l = String c s :: rest.
Proof.
  induction l as [|a l IH]; [done|]. destruct a; simpl; [exact IH|]. eauto.
Qed.

Lemma truthy_Some (s : string) : truthy (Some s) = negb (String.eqb s "").
Proof. by destruct s. Qed.

Lemma app_nonempty_l (s t : string) : s ≠ "" → s +:+ t ≠ "".
Proof. by destruct s. Qed.

Lemma prefixFor_step (ancestors : list string) (prefix : option string) (n : string) :
  prefixFor ancestors prefix →
  (if truthy prefix then default "" prefix +:+ " > " +:+ sentenceCase n else sentenceCase n)
  = String.concat " > " (dropEmpty (map sentenceCase ancestors) ++ [sentenceCase n])
  ∧ prefixFor (ancestors ++ [n])
      (Some (if truthy prefix then default "" prefix +:+ " > " +:+ sentenceCase n
             else sentenceCase n)).
Proof.
  unfold prefixFor. rewrite map_app. simpl map.
  destruct (dropEmpty (map sentenceCase ancestors)) as [|seg path] eqn:Hpath.
  - intros ->. rewrite dropEmpty_snoc_nil by done. split; [done|].
    by destruct (sentenceCase n).
  - intros ->.
    destruct (dropEmpty_head (map sentenceCase ancestors)) as (c & s & rest & Hhead);
      [by rewrite Hpath|].
    rewrite Hpath in Hhead. injection Hhead as -> ->.
    rewrite dropEmpty_snoc by (by rewrite Hpath). rewrite Hpath.
    assert (truthy (Some (String.concat " > " (String c s :: rest))) = true) as ->.
    { rewrite truthy_Some. destruct rest; done. }
    assert (default "" (Some (String.concat " > " (String c s :: rest)))
              +:+ " > " +:+ sentenceCase n
            = String.concat " > " ((String c s :: rest) ++ [sentenceCase n])) as ->.
    { by rewrite concat_snoc. }
    split; reflexivity.
Qed.

(** The names [flattenIdlAccounts] gives to the leaves of a tree. *)
Lemma flattenIdlAccount_names (account : IdlAccountItem) :
  ∀ ancestors prefix, prefixFor ancestors prefix →
    map fa_name (flattenIdlAccount prefix account) = accountNames ancestors account.
Proof.
  induction account as [n isMut isSigner|n accounts IH] using IdlAccountItem_nested_ind;
    intros ancestors prefix Hprefix.
  - simpl. f_equal. by apply prefixFor_step.
  - simpl. destruct (prefixFor_step ancestors prefix n Hprefix) as [_ Hnext].
    revert Hnext. generalize (Some (if truthy prefix
      then default "" prefix +:+ " > " +:+ sentenceCase n else sentenceCase n)).
    intros prefix' Hnext.
    induction IH as [|a accounts Ha _ IHaccounts]; [done|].
    simpl. rewrite map_app. f_equal; [by apply Ha|exact IHaccounts].
Qed.

Lemma flattenIdlAccounts_names (accounts : list IdlAccountItem) :
  map fa_name (flattenIdlAccounts accounts None) = concat (map (accountNames []) accounts).
Proof.
  unfold flattenIdlAccounts.
  induction accounts as [|a accounts IH]; [done|].
  simpl. rewrite map_app, IH. f_equal. by apply flattenIdlAccount_names.
Qed.

(** When every group has a name these are the names of the specification. *)
Lemma accountNames_spec (account : IdlAccountItem) :
  ∀ ancestors, dropEmpty (map sentenceCase ancestors) = map sentenceCase ancestors →
    groupsNamed account = true →
    accountNames ancestors account = spec_accountNames ancestors account.
Proof.
  induction account as [n isMut isSigner|n accounts IH] using IdlAccountItem_nested_ind;
    intros ancestors Hpath Hnamed.
  - simpl. by rewrite Hpath, map_app.
  - simpl in Hnamed. apply andb_prop in Hnamed as [Hn Hnamed].
    assert (dropEmpty (map sentenceCase (ancestors ++ [n]))
            = map sentenceCase (ancestors ++ [n])) as Hpath'.
    { rewrite map_app. simpl map.
      destruct (map sentenceCase ancestors) as [|seg path] eqn:Hsegs.
      - destruct n as [|c n]; [done|]. simpl. unfold sentenceCase. simpl.
        by destruct (isUpperAZ c).
      - rewrite <- Hsegs in *. rewrite dropEmpty_snoc; [by rewrite Hpath|].
        by rewrite Hpath, Hsegs. }
    simpl. f_equal.
    induction IH as [|a accounts Ha _ IHaccounts]; [done|].
    simpl in Hnamed. apply andb_prop in Hnamed as [Hnamed_a Hnamed].
    simpl. f_equal; [by apply Ha|by apply IHaccounts].
Qed.

Lemma flattenIdlAccounts_spec (accounts : list IdlAccountItem) :
  forallb groupsNamed accounts = true →
  map fa_name (flattenIdlAccounts accounts None)
  = concat (map (spec_accountNames []) accounts).
Proof.
  rewrite flattenIdlAccounts_names.
  induction accounts as [|a accounts IH]; [done|].
  simpl. intros [Ha Haccounts]%andb_prop.
  f_equal; [by apply accountNames_spec|by apply IH].
Qed.





(** ** Maps filled by a loop *)

Import BorshInstructionCoder.

Lemma foldl_insert_lookup_other {A B} (k : A → string) (v : A → B)
    (l : list A) (m : gmap string B) (key : string) :
  (∀ x, x ∈ l → k x ≠ key) →
  foldl (fun m x => <[k x := v x]> m) m l !! key = m !! key.
Proof.
  revert m. induction l as [|a l IH]; intros m Hl; [done|].
  simpl. rewrite IH by (intros x Hx; apply Hl; by right).
  apply lookup_insert_ne, Hl. by left.
Qed.

(** The entry under a key is the one the last element with that key wrote. *)
Lemma foldl_insert_lookup_last {A B} (k : A → string) (v : A → B)
    (pre post : list A) (x : A) (m : gmap string B) :
  (∀ y, y ∈ post → k y ≠ k x) →
  foldl (fun m x => <[k x := v x]> m) m (pre ++ x :: post) !! k x = Some (v x).
Proof.
  intros Hpost. rewrite foldl_app. simpl.
  rewrite foldl_insert_lookup_other by done. apply lookup_insert_eq.
Qed.

Lemma foldl_insert_lookup_Some {A B} (k : A → string) (v : A → B)
    (l : list A) (m : gmap string B) (key : string) (b : B) :
  foldl (fun m x => <[k x := v x]> m) m l !! key = Some b →
  m !! key = Some b ∨ ∃ x, x ∈ l ∧ k x = key ∧ v x = b.
Proof.
  revert m. induction l as [|a l IH]; intros m; [by left|].
  simpl. intros [Hm|(x & Hx & Hk & Hv)]%IH.
  - destruct (decide (k a = key)) as [Heq|Hne].
    + rewrite Heq, lookup_insert_eq in Hm. injection Hm as <-.
      right. exists a. split; [by left|done].
    + rewrite lookup_insert_ne in Hm by done. by left.
  - right. exists x. split; [by right|done].
Qed.

(** ** The constructor *)

Section constructor.
Context `{Externals} `{LayoutLib}.

Lemma loopBody_Ok (ixLayout : gmap string Layout) (st st' : loopState) (ix : IdlInstruction) :
  loopBody ixLayout st ix = Ok st' →
  ls_discriminatorLayouts st' = decodersOf ixLayout [ix] (ls_discriminatorLayouts st)
  ∧ ls_ixDiscriminator st' = discriminatorsOf [ix] (ls_ixDiscriminator st)
  ∧ ls_discriminatorLength st' = Some (discriminatorOf ix).2
  ∧ ∀ n, ls_discriminatorLength st = Some (S n) → (discriminatorOf ix).2 = S n.
Proof.
  unfold loopBody. destruct (discriminatorOf ix) as [discriminator len] eqn:Hdisc.
  unfold decodersOf, discriminatorsOf. simpl foldl. rewrite Hdisc. simpl.
  destruct (ls_discriminatorLength st) as [[|n]|].
  - intros [= <-]. by repeat split.
  - destruct (decide (S n ≠ len)) as [Hne|Heq]; [done|].
    intros [= <-]. repeat split. intros n' [= <-].
    destruct (decide (len = S n)); [done|]. by destruct Heq.
  - intros [= <-]. by repeat split.
Qed.

(** The loop, when it ends without throwing: the two tables hold what every
    instruction wrote; a length that is not zero, once recorded, is the
    length of every later instruction. *)
Lemma foldlM_loopBody_Ok (ixLayout : gmap string Layout) (ixs : list IdlInstruction) :
  ∀ st st', foldlM (loopBody ixLayout) st ixs = Ok st' →
    ls_discriminatorLayouts st' = decodersOf ixLayout ixs (ls_discriminatorLayouts st)
    ∧ ls_ixDiscriminator st' = discriminatorsOf ixs (ls_ixDiscriminator st)
    ∧ (∀ n, ls_discriminatorLength st = Some (S n) →
            ls_discriminatorLength st' = Some (S n)
            ∧ Forall (fun ix => (discriminatorOf ix).2 = S n) ixs)
    ∧ (∀ ix, ix ∈ ixs → (discriminatorOf ix).2 ≠ 0 →
             ls_discriminatorLength st' = Some (discriminatorOf ix).2).
Proof.
  induction ixs as [|a ixs IH]; intros st st'.
  - intros [= <-]. split_and!; [done|done| |].
    + intros n Hn. by split.
    + by intros ix Hix%elem_of_nil.
  - simpl. intros (st1 & Hbody & Hrest)%bind_Ok.
    apply loopBody_Ok in Hbody as (Hdec & Hdisc & Hlen & Hsame).
    apply IH in Hrest as (Hdec' & Hdisc' & Hkeep & Hall).
    split_and!.
    + by rewrite Hdec', Hdec.
    + by rewrite Hdisc', Hdisc.
    + intros n Hn. specialize (Hsame n Hn).
      destruct (Hkeep n) as [Hlast Hlater]; [by rewrite Hlen, Hsame|].
      split; [done|]. by constructor.
    + intros ix [->|Hix]%elem_of_cons Hnz; [|by apply Hall].
      destruct (discriminatorOf a).2 as [|n] eqn:Hlen_a; [done|].
      by apply Hkeep.
Qed.

Lemma foldlM_app {S A} (f : S → A → result S) (s : S) (l1 l2 : list A) :
  foldlM f s (l1 ++ l2) = s' ← foldlM f s l1; foldlM f s' l2.
Proof.
  revert s. induction l1 as [|a l1 IH]; intros s; [done|].
  simpl. destruct (f s a) as [s1|e]; [|done]. rewrite !result_bind_Ok. apply IH.
Qed.

(** The loop throws one error only. *)
Lemma foldlM_loopBody_Err (ixLayout : gmap string Layout) (ixs : list IdlInstruction) :
  ∀ st e, foldlM (loopBody ixLayout) st ixs = Err e →
    e = Error "All instructions must have the same discriminator length".
Proof.
  induction ixs as [|a ixs IH]; intros st e; [done|].
  simpl. destruct (loopBody ixLayout st a) as [st1|e1] eqn:Hbody.
  - rewrite result_bind_Ok. apply IH.
  - rewrite result_bind_Err. intros [= <-]. revert Hbody. unfold loopBody.
    destruct (discriminatorOf a) as [discriminator len].
    destruct (ls_discriminatorLength st) as [[|n]|]; [done| |done].
    destruct (decide (S n ≠ len)); [|done]. by intros [= <-].
Qed.

Lemma constructor_Ok (idl : Idl) (this : t) :
  constructor idl = Ok this →
  ∃ layouts,
    parseIxLayout idl = Ok layouts
    ∧ BorshInstructionCoder.idl this = idl
    ∧ ixLayout this = layouts
    ∧ discriminatorLayouts this = decodersOf layouts (instructions idl) ∅
    ∧ ixDiscriminator this = discriminatorsOf (instructions idl) ∅
    ∧ (∀ ix, ix ∈ instructions idl → (discriminatorOf ix).2 ≠ 0 →
             discriminatorLength this = Some (discriminatorOf ix).2).
Proof.
  unfold constructor. intros (layouts & Hparse & (st & Hloop & [= <-])%bind_Ok)%bind_Ok.
  apply foldlM_loopBody_Ok in Hloop as (Hdec & Hdisc & _ & Hall).
  exists layouts. by repeat split.
Qed.

Context `{!ExternalsLaws}.

(** The bytes of a discriminator are as many as the length recorded for it. *)
Lemma discriminatorOf_length (ix : IdlInstruction) :
  length (discriminatorOf ix).1 = (discriminatorOf ix).2.
Proof.
  unfold discriminatorOf. destruct (ix_discriminant ix) as [d|]; simpl.
  - unfold Buffer_from. by rewrite length_map.
  - unfold sighash, subarray. rewrite length_drop, length_take, sha256_digest_length.
    reflexivity.
Qed.

(** The decoding table has no entry for a byte string that is the
    discriminator of no instruction. *)
Lemma decodersOf_lookup_None (layouts : gmap string Layout) (ixs : list IdlInstruction)
    (prefix : Buffer) :
  (∀ ix, ix ∈ ixs → (discriminatorOf ix).1 ≠ prefix) →
  decodersOf layouts ixs ∅ !! bs58_encode prefix = None.
Proof.
  intros Hixs. unfold decodersOf.
  rewrite foldl_insert_lookup_other; [done|].
  intros ix Hix Heq. by apply (Hixs ix Hix), bs58_encode_inj.
Qed.

Lemma decode_lookup_None (this : t) (ix : Buffer) (encoding : Encoding) :
  discriminatorLayouts this
    !! bs58_encode (subarray ix 0 (default (length ix) (discriminatorLength this))) = None →
  decode this (IxBuffer ix) encoding = Ok None.
Proof. unfold decode. rewrite result_bind_Ok. by intros ->. Qed.

End constructor.

(** ** Decoding *)

Section decode.
Context `{Externals} `{LayoutLib} `{!ExternalsLaws}.

(** C2: a buffer whose leading bytes, as many as the discriminator length
    (all of them when the buffer is shorter, none when it is empty), are the
    discriminator of no instruction is not decoded: [decode] returns [null]
    and does not throw. *)
Theorem decode_unknown_discriminator :
  ∀ (idl : Idl) (this : t) (ix : Buffer) (encoding : Encoding),
    constructor idl = Ok this →
    (∀ i, i ∈ instructions idl →
          (discriminatorOf i).1
          ≠ subarray ix 0 (default (length ix) (discriminatorLength this))) →
    decode this (IxBuffer ix) encoding = Ok None.
Proof.
  intros idl this ix encoding (layouts & _ & _ & _ & Hdecoders & _)%constructor_Ok Hnone.
  apply decode_lookup_None. rewrite Hdecoders. by apply decodersOf_lookup_None.
Qed.

(** C4, amended: when no instruction declares an empty discriminant, a
    buffer strictly shorter than the discriminator length is not decoded:
    [decode] returns [null]; it does not throw. *)
Theorem decode_short_buffer :
  ∀ (idl : Idl) (this : t) (ix : Buffer) (encoding : Encoding) (n : nat),
    constructor idl = Ok this →
    (∀ i, i ∈ instructions idl → (discriminatorOf i).2 ≠ 0) →
    discriminatorLength this = Some n →
    length ix < n →
    decode this (IxBuffer ix) encoding = Ok None.
Proof.
  intros idl this ix encoding n Hthis Hnonempty Hn Hshort.
  destruct (constructor_Ok idl this Hthis) as (layouts & _ & _ & _ & Hdecoders & _ & Hlen).
  apply decode_lookup_None. rewrite Hdecoders. apply decodersOf_lookup_None.
  intros i Hi Heq. apply (f_equal length) in Heq.
  rewrite discriminatorOf_length in Heq.
  specialize (Hlen i Hi (Hnonempty i Hi)). rewrite Hn in Hlen. injection Hlen as ->.
  unfold subarray in Heq. rewrite length_drop, length_take in Heq. simpl in Heq. lia.
Qed.

End decode.

(** ** Discriminators *)

Section discriminators.
Context `{Externals} `{LayoutLib}.

(** X2: after an instruction whose recorded length is not zero, an
    instruction with another recorded length makes the constructor throw. *)
Lemma constructor_length_mismatch (idl : Idl) (layouts : gmap string Layout)
    (pre mid post : list IdlInstruction) (a b : IdlInstruction) :
  parseIxLayout idl = Ok layouts →
  instructions idl = pre ++ a :: mid ++ b :: post →
  (discriminatorOf a).2 ≠ 0 →
  (discriminatorOf b).2 ≠ (discriminatorOf a).2 →
  constructor idl = Err (Error "All instructions must have the same discriminator length").
Proof.
  intros Hparse Hixs Ha Hb. unfold constructor. rewrite Hparse, result_bind_Ok.
  destruct (foldlM _ _ (instructions idl)) as [st|e] eqn:Hloop.
  - exfalso. rewrite Hixs, foldlM_app in Hloop.
    apply bind_Ok in Hloop as (st1 & _ & Hloop). simpl in Hloop.
    apply bind_Ok in Hloop as (st2 & Hbody & Hloop).
    apply loopBody_Ok in Hbody as (_ & _ & Hlen & _).
    destruct (discriminatorOf a).2 as [|n] eqn:Hlen_a; [done|].
    apply foldlM_loopBody_Ok in Hloop as (_ & _ & Hkeep & _).
    destruct (Hkeep n Hlen) as [_ Hlater].
    rewrite Forall_app, Forall_cons in Hlater. by destruct Hlater as (_ & Hlen_b & _).
  - by rewrite (foldlM_loopBody_Err _ _ _ _ Hloop).
Qed.

(** C3, where the source departs from it: a recorded length of zero is
    taken for no length at all, so an instruction with an empty discriminant
    may be followed by one with eight bytes: the constructor does not throw,
    and the codec takes eight for the discriminator length. *)
Theorem constructor_empty_discriminant :
  ∀ (idl : Idl) (layouts : gmap string Layout) (a b : IdlInstruction),
    let lengths := map (fun ix => (discriminatorOf ix).2) [a; b] in
    parseIxLayout idl = Ok layouts →
    instructions idl = [a; b] →
    ix_discriminant a = Some {| disc_value := [] |} →
    ix_discriminant b = None →
    lengths = [0; 8]
    ∧ ∃ this, constructor idl = Ok this ∧ discriminatorLength this = Some 8.
Proof.
  intros idl layouts a b lengths Hparse Hixs Ha Hb.
  assert (discriminatorOf a = ([], 0)) as Hdisc_a by (unfold discriminatorOf; by rewrite Ha).
  assert ((discriminatorOf b).2 = 8) as Hlen_b by (unfold discriminatorOf; by rewrite Hb).
  split; [unfold lengths; simpl; by rewrite Hdisc_a, Hlen_b|].
  unfold constructor. rewrite Hparse, result_bind_Ok, Hixs. simpl foldlM.
  unfold loopBody at 2. rewrite Hdisc_a. simpl ls_discriminatorLength. cbv iota.
  rewrite result_bind_Ok. unfold loopBody.
  destruct (discriminatorOf b) as [discriminator len]. simpl in Hlen_b. subst len.
  simpl. eexists. split; reflexivity.
Qed.

Context `{!ExternalsLaws}.

(** C5: the discriminator of an instruction without a declared discriminant
    is the first 8 bytes of the SHA-256 digest of "global:" followed by the
    name in snake case, the length recorded for it is 8, and so is the
    discriminator length of the codec; the codec keeps that discriminator
    under the name of the instruction when no later instruction has the
    name. *)
Theorem sighash_discriminator :
  ∀ (idl : Idl) (this : t) (ix : IdlInstruction),
    let digest := sha256_digest ("global:" +:+ snakeCase (ix_name ix)) in
    constructor idl = Ok this →
    ix ∈ instructions idl →
    ix_discriminant ix = None →
    discriminatorOf ix = (take 8 digest, 8)
    ∧ length (take 8 digest) = 8
    ∧ discriminatorLength this = Some 8
    ∧ (∀ pre post, instructions idl = pre ++ ix :: post →
         (∀ y, y ∈ post → ix_name y ≠ ix_name ix) →
         ixDiscriminator this !! ix_name ix = Some (take 8 digest)).
Proof.
  intros idl this ix digest Hthis Hix Hnone.
  assert (discriminatorOf ix = (take 8 digest, 8)) as Hdisc.
  { unfold discriminatorOf. rewrite Hnone. unfold sighash, subarray. by rewrite drop_0. }
  destruct (constructor_Ok idl this Hthis) as (layouts & _ & _ & _ & _ & Hdiscs & Hlen).
  split_and!.
  - done.
  - unfold digest. rewrite length_take, sha256_digest_length. reflexivity.
  - specialize (Hlen ix Hix). rewrite Hdisc in Hlen. by apply Hlen.
  - intros pre post Hixs Hpost. rewrite Hdiscs, Hixs. unfold discriminatorsOf.
    rewrite (foldl_insert_lookup_last ix_name (fun ix => (discriminatorOf ix).1));
      [by rewrite Hdisc|exact Hpost].
Qed.

End discriminators.

(** ** Encoding, and decoding what was encoded *)

Section encode.
Context `{Externals} `{LayoutLib}.



Context `{!ExternalsLaws}.

(** What is encoded is decoded: for an instruction of a codec whose name is
    in camel case and whose discriminator is not empty, when no later
    instruction has its name or its discriminator, and for a value that the
    layout kept for the instruction writes into the scratch buffer of 1000
    bytes and reads back from the bytes written. *)
Lemma decode_encode_layout :
  ∀ (idl : Idl) (this : t) (pre post : list IdlInstruction) (ix : IdlInstruction)
    (v : value) (l : Layout) (len : nat) (b : Buffer) (encoding : Encoding),
    constructor idl = Ok this →
    instructions idl = pre ++ ix :: post →
    camelCase (ix_name ix) = ix_name ix →
    (discriminatorOf ix).2 ≠ 0 →
    (∀ y, y ∈ post →
       ix_name y ≠ ix_name ix ∧ (discriminatorOf y).1 ≠ (discriminatorOf ix).1) →
    ixLayout this !! ix_name ix = Some l →
    layout_encode l v (Buffer_alloc 1000) = Ok (len, b) →
    layout_decode l (take len b) = Ok v →
    encode this (ix_name ix) v = Ok ((discriminatorOf ix).1 ++ take len b)
    ∧ decode this (IxBuffer ((discriminatorOf ix).1 ++ take len b)) encoding
      = Ok (Some {| name := ix_name ix; data := v |}).
Proof.
  intros idl this pre post ix v l len b encoding Hthis Hixs Hcamel Hnz Hpost Hl Henc Hdec.
  destruct (constructor_Ok idl this Hthis)
    as (layouts & _ & _ & Hlayouts & Hdecoders & Hdiscs & Hlen).
  assert (ix ∈ instructions idl) as Hix
    by (rewrite Hixs, elem_of_app, elem_of_cons; auto).
  specialize (Hlen ix Hix Hnz).
  assert (ixDiscriminator this !! ix_name ix = Some (discriminatorOf ix).1) as Hdisc.
  { rewrite Hdiscs, Hixs. unfold discriminatorsOf.
    apply (foldl_insert_lookup_last ix_name (fun ix => (discriminatorOf ix).1)).
    intros y Hy. by apply Hpost. }
  split.
  - unfold encode, _encode. rewrite Hcamel, Hl, Hdisc, Henc, result_bind_Ok.
    unfold subarray. by rewrite drop_0.
  - unfold decode. rewrite result_bind_Ok, Hlen. simpl default.
    unfold subarray, subarray_from.
    rewrite drop_0, <- discriminatorOf_length, take_app_length, drop_app_length.
    rewrite Hdecoders, Hixs. unfold decodersOf.
    rewrite (foldl_insert_lookup_last (fun ix => bs58_encode (discriminatorOf ix).1)
               (fun ix => {| layout := layouts !! ix_name ix;
                             decoder_name := ix_name ix |})).
    + simpl. rewrite <- Hlayouts, Hl, Hdec. reflexivity.
    + intros y Hy Heq. apply bs58_encode_inj in Heq. by apply (Hpost y Hy).
Qed.

End encode.

(** ** Base58 *)

Module Base58Facts.
Import Base58.
Local Open Scope N_scope.

Lemma number_foldl (b : Buffer) (acc : N) :
  foldl (fun acc x => acc * 256 + Byte.to_N x) acc b
  = acc * 256 ^ N.of_nat (length b) + number b.
Proof.
  unfold number. revert acc. induction b as [|x b IH]; intros acc.
  - simpl. lia.
  - simpl foldl. rewrite IH, (IH (0 * 256 + Byte.to_N x)).
    rewrite length_cons, Nat2N.inj_succ, N.pow_succ_r'. lia.
Qed.

Lemma number_cons (x : byte) (b : Buffer) :
  number (x :: b) = Byte.to_N x * 256 ^ N.of_nat (length b) + number b.
Proof. unfold number at 1. simpl foldl. rewrite number_foldl. lia. Qed.

Lemma number_bound (b : Buffer) : number b < 256 ^ N.of_nat (length b).
Proof.
  induction b as [|x b IH]; [by vm_compute|].
  rewrite number_cons, length_cons, Nat2N.inj_succ, N.pow_succ_r'.
  pose proof (Byte.to_N_bounded x). nia.
Qed.

Lemma to_N_inj (x y : byte) : Byte.to_N x = Byte.to_N y → x = y.
Proof.
  intros Heq. pose proof (Byte.of_to_N x) as Hx. rewrite Heq, Byte.of_to_N in Hx.
  by injection Hx.
Qed.

Lemma to_N_zero (x : byte) : Byte.to_N x = 0 → x = x00.
Proof. intros Hx. by apply to_N_inj. Qed.

(** Byte strings of one length that denote one number are equal. *)
Lemma number_inj_length (a b : Buffer) :
  length a = length b → number a = number b → a = b.
Proof.
  revert b. induction a as [|x a IH]; intros [|y b]; try done.
  rewrite !length_cons, !number_cons. intros [= Hlen]. rewrite Hlen.
  pose proof (number_bound a) as Ha. pose proof (number_bound b) as Hb.
  rewrite Hlen in Ha. intros Heq.
  destruct (N.div_mod_unique (256 ^ N.of_nat (length b)) (Byte.to_N x) (Byte.to_N y)
              (number a) (number b)) as [Hxy Hab]; [done|done|lia|].
  f_equal; [by apply to_N_inj|by apply IH].
Qed.

Lemma trimmed_lower (x : byte) (b : Buffer) :
  trimmed (x :: b) → 256 ^ N.of_nat (length b) ≤ number (x :: b).
Proof.
  unfold trimmed. simpl. destruct (decide (x = x00)) as [->|Hx]; [done|]. intros _.
  rewrite number_cons. assert (Byte.to_N x ≠ 0) by (intros Hz; by apply Hx, to_N_zero).
  nia.
Qed.

Lemma trimmed_length (a b : Buffer) :
  trimmed a → trimmed b → number a = number b → (length a ≤ length b)%nat.
Proof.
  intros Ha Hb Heq. destruct a as [|x a]; [simpl; lia|].
  pose proof (trimmed_lower x a Ha) as Hlow. pose proof (number_bound b) as Hup.
  rewrite Heq in Hlow. destruct (decide (length (x :: a) ≤ length b)%nat) as [|Hgt]; [done|].
  exfalso. assert (length b ≤ length a)%nat as Hle by (simpl in Hgt; lia).
  assert (256 ^ N.of_nat (length b) ≤ 256 ^ N.of_nat (length a)) by (apply N.pow_le_mono_r; lia).
  lia.
Qed.

Lemma number_inj (a b : Buffer) : trimmed a → trimmed b → number a = number b → a = b.
Proof.
  intros Ha Hb Heq. apply number_inj_length; [|done].
  pose proof (trimmed_length a b Ha Hb Heq). pose proof (trimmed_length b a Hb Ha (eq_sym Heq)).
  lia.
Qed.

Lemma leading_split {A} `{EqDecision A} (x : A) (l : list A) :
  l = replicate (leading x l) x ++ drop (leading x l) l ∧ leading x (drop (leading x l) l) = 0%nat.
Proof.
  induction l as [|y l [IH1 IH2]]; [done|].
  simpl. destruct (decide (y = x)) as [->|Hne]; simpl.
  - split; [by f_equal|done].
  - by rewrite decide_False.
Qed.

Lemma leading_replicate {A} `{EqDecision A} (x : A) (n : nat) (l : list A) :
  leading x l = 0%nat → leading x (replicate n x ++ l) = n.
Proof.
  intros Hl. induction n as [|n IH]; [done|]. simpl. rewrite decide_True by done. by f_equal.
Qed.

Lemma digits_acc (fuel : nat) (n : N) (acc : list N) :
  digits fuel n acc = digits fuel n [] ++ acc.
Proof.
  revert n acc. induction fuel as [|fuel IH]; intros n acc; [done|].
  simpl. destruct (n =? 0); [done|].
  rewrite (IH _ (_ :: acc)), (IH _ [_]). by rewrite <- app_assoc.
Qed.

Lemma number58_snoc (ds : list N) (d : N) : number58 (ds ++ [d]) = number58 ds * 58 + d.
Proof. unfold number58. by rewrite foldl_app. Qed.

Lemma digits_number58 (fuel : nat) (n : N) :
  n < 58 ^ N.of_nat fuel → number58 (digits fuel n []) = n.
Proof.
  revert n. induction fuel as [|fuel IH]; intros n Hn.
  - simpl in *. unfold number58. simpl. lia.
  - simpl. destruct (N.eqb_spec n 0) as [->|Hnz]; [done|].
    rewrite digits_acc, number58_snoc, IH.
    + pose proof (N.div_mod n 58). lia.
    + rewrite Nat2N.inj_succ, N.pow_succ_r' in Hn.
      apply N.Div0.div_lt_upper_bound. lia.
Qed.

Lemma digits_Forall (fuel : nat) (n : N) : Forall (fun d => d < 58) (digits fuel n []).
Proof.
  revert n. induction fuel as [|fuel IH]; intros n; [constructor|].
  simpl. destruct (n =? 0); [constructor|].
  rewrite digits_acc. apply Forall_app. split; [apply IH|].
  constructor; [|constructor]. apply N.mod_lt. lia.
Qed.

(** The first digit of a number is not zero. *)
Lemma digits_head (fuel : nat) (n : N) :
  n < 58 ^ N.of_nat fuel → head (digits fuel n []) ≠ Some 0.
Proof.
  revert n. induction fuel as [|fuel IH]; intros n Hn; [done|].
  simpl. destruct (N.eqb_spec n 0) as [->|Hnz]; [done|].
  rewrite digits_acc.
  assert (n / 58 < 58 ^ N.of_nat fuel) as Hdiv.
  { rewrite Nat2N.inj_succ, N.pow_succ_r' in Hn. apply N.Div0.div_lt_upper_bound. lia. }
  specialize (IH _ Hdiv). pose proof (digits_number58 fuel _ Hdiv) as Hval.
  destruct (digits fuel (n / 58) []) as [|d ds].
  - simpl. unfold number58 in Hval. simpl in Hval.
    intros [= Hmod]. pose proof (N.div_mod n 58). lia.
  - exact IH.
Qed.

Lemma NoDup_ALPHABET : NoDup ALPHABET.
Proof. apply (bool_decide_unpack _). by vm_compute. Qed.

Lemma digitChar_inj (d1 d2 : N) : d1 < 58 → d2 < 58 → digitChar d1 = digitChar d2 → d1 = d2.
Proof.
  intros H1 H2 Heq. unfold digitChar in Heq.
  apply N2Nat.inj. apply (proj1 (List.NoDup_nth ALPHABET LEADER)) in Heq; [done| | |].
  - apply NoDup_ListNoDup, NoDup_ALPHABET.
  - change (List.length ALPHABET) with 58%nat. lia.
  - change (List.length ALPHABET) with 58%nat. lia.
Qed.

Lemma digitChars_inj (ds1 ds2 : list N) :
  Forall (fun d => d < 58) ds1 → Forall (fun d => d < 58) ds2 →
  map digitChar ds1 = map digitChar ds2 → ds1 = ds2.
Proof.
  intros H1. revert ds2. induction H1 as [|d1 ds1 Hd1 _ IH]; intros [|d2 ds2] H2; try done.
  apply Forall_cons in H2 as [Hd2 H2]. simpl. intros [= Hd Hds].
  f_equal; [by apply digitChar_inj|by apply IH].
Qed.

Lemma digitChars_leading (ds : list N) :
  Forall (fun d => d < 58) ds → head ds ≠ Some 0 → leading LEADER (map digitChar ds) = 0%nat.
Proof.
  intros Hds Hhead. destruct ds as [|d ds]; [done|].
  apply Forall_cons in Hds as [Hd _]. simpl.
  destruct (decide (digitChar d = LEADER)) as [Heq|]; [|done].
  exfalso. apply Hhead. simpl. f_equal. by apply digitChar_inj.
Qed.

Lemma number_lt_fuel (b : Buffer) : number b < 58 ^ N.of_nat (2 * length b).
Proof.
  pose proof (number_bound b) as Hb.
  assert (256 ^ N.of_nat (length b) ≤ 58 ^ N.of_nat (2 * length b)); [|lia].
  rewrite Nat2N.inj_mul, N.pow_mul_r. apply N.pow_le_mono_l. by vm_compute.
Qed.

(** [bs58.encode] gives distinct texts to distinct byte strings. *)
Lemma encode_inj (a b : Buffer) : encode a = encode b → a = b.
Proof.
  unfold encode, zeroes. intros Heq.
  apply (f_equal list_ascii_of_string) in Heq.
  rewrite !list_ascii_of_string_of_list_ascii in Heq.
  destruct (leading_split x00 a) as [Ha Ha0]. destruct (leading_split x00 b) as [Hb Hb0].
  set (za := leading x00 a) in *. set (zb := leading x00 b) in *.
  set (ra := drop za a) in *. set (rb := drop zb b) in *.
  assert (length a - za = length ra)%nat as Hra by (unfold ra; by rewrite length_drop).
  assert (length b - zb = length rb)%nat as Hrb by (unfold rb; by rewrite length_drop).
  rewrite Hra, Hrb in Heq. clear Hra Hrb.
  pose proof (number_lt_fuel ra) as Hfa. pose proof (number_lt_fuel rb) as Hfb.
  set (da := digits (2 * length ra) (number ra) []) in *.
  set (db := digits (2 * length rb) (number rb) []) in *.
  assert (leading LEADER (map digitChar da) = 0%nat) as Hla
    by (apply digitChars_leading; [apply digits_Forall|by apply digits_head]).
  assert (leading LEADER (map digitChar db) = 0%nat) as Hlb
    by (apply digitChars_leading; [apply digits_Forall|by apply digits_head]).
  assert (za = zb) as Hz.
  { apply (f_equal (leading LEADER)) in Heq. by rewrite !leading_replicate in Heq. }
  rewrite Hz in Heq. apply app_inv_head in Heq.
  apply digitChars_inj in Heq; [|apply digits_Forall..].
  assert (number ra = number rb) as Hnum.
  { rewrite <- (digits_number58 _ _ Hfa), <- (digits_number58 _ _ Hfb). by f_equal. }
  apply number_inj in Hnum; [|done..].
  rewrite Ha, Hb. by rewrite Hz, Hnum.
Qed.

End Base58Facts.

Lemma SHA256_digest_length (s : string) : length (SHA256.digest s) = 32.
Proof. unfold SHA256.digest, SHA256.hash. by rewrite !length_app. Qed.

#[global] Instance packages_laws : ExternalsLaws := {|
  bs58_encode_inj := Base58Facts.encode_inj;
  sha256_digest_length := SHA256_digest_length
|}.

(** ** The layouts of the instructions *)

Lemma mapM_Ok_Forall2 {A B} (f : A → result B) (l : list A) (l' : list B) :
  mapM f l = Ok l' → Forall2 (fun a b => f a = Ok b) l l'.
Proof.
  revert l'. induction l as [|a l IH]; intros l'.
  - intros [= <-]. constructor.
  - rewrite mapM_cons. intros (b & Hb & (k & Hk & [= <-])%bind_Ok)%bind_Ok.
    constructor; [done|by apply IH].
Qed.

Section layouts.
Context `{Externals} `{LayoutLib}.

(** The layout kept under the name of an instruction is the structure of
    the layouts of its arguments, when no later instruction has the name. *)
Lemma parseIxLayout_lookup (idl : Idl) (layouts : gmap string Layout)
    (pre post : list IdlInstruction) (ix : IdlInstruction) :
  parseIxLayout idl = Ok layouts →
  instructions idl = pre ++ ix :: post →
  (∀ y, y ∈ post → camelCase (ix_name y) ≠ camelCase (ix_name ix)) →
  ∃ fieldLayouts,
    mapM (fun arg => fieldLayout arg (default [] (accounts idl) ++ default [] (types idl)))
      (ix_args ix) = Ok fieldLayouts
    ∧ layouts !! camelCase (ix_name ix)
      = Some (struct fieldLayouts (camelCase (ix_name ix))).
Proof.
  unfold parseIxLayout. intros (entries & Hentries & [= <-])%bind_Ok Hixs Hpost.
  rewrite Hixs in Hentries. apply mapM_Ok_Forall2 in Hentries.
  apply Forall2_app_inv_l in Hentries as (pre' & rest' & _ & Hrest & ->).
  apply Forall2_cons_inv_l in Hrest as (entry & post' & Hentry & Hpost' & ->).
  apply bind_Ok in Hentry as (fieldLayouts & Hfields & [= <-]).
  exists fieldLayouts. split; [done|]. unfold Map_of.
  apply (foldl_insert_lookup_last fst snd pre' post'
           (camelCase (ix_name ix), struct fieldLayouts (camelCase (ix_name ix)))).
  intros e He. apply (list_elem_of_lookup_1 _ _) in He as [i He].
  destruct (Forall2_lookup_r _ _ _ _ _ Hpost' He) as (y & Hy & Hrun).
  apply bind_Ok in Hrun as (fls & _ & [= <-]). simpl.
  apply Hpost. by apply (list_elem_of_lookup_2 _ i).
Qed.

End layouts.

(** ** The executable layouts write what they serialize *)

Lemma layoutOf_Writes (property : option string) (ser : value → result Buffer)
    (de : Buffer → result (value * Buffer)) (v : value) (bytes : Buffer) :
  ser v = Ok bytes → Writes (IdlCoder.layoutOf property ser de) v bytes.
Proof.
  intros Hser b. simpl. rewrite Hser, result_bind_Ok. split.
  - intros Hle. by rewrite (proj2 (Nat.ltb_ge _ _) Hle).
  - intros Hlt. rewrite (proj2 (Nat.ltb_lt _ _) Hlt). by eexists.
Qed.

Lemma structEncode_Writes (fields : list Layout) (src : value) (bss : list Buffer) :
  Forall2 (fun fd bytes => ∃ fv,
    getProp src (default "undefined" (property fd)) = Ok fv ∧ Writes fd fv bytes)
    fields bss →
  ∀ b : Buffer,
    (length (concat bss) ≤ length b →
     IdlCoder.structEncode fields src b
     = Ok (length (concat bss), concat bss ++ drop (length (concat bss)) b))
    ∧ (length b < length (concat bss) →
       ∃ e, IdlCoder.structEncode fields src b = Err e).
Proof.
  induction 1 as [|fd bytes fields bss (fv & Hfv & Hwrites) _ IH]; intros b.
  - split; [by intros _|]. simpl. lia.
  - simpl concat. rewrite length_app. simpl IdlCoder.structEncode.
    rewrite Hfv, result_bind_Ok. destruct (Hwrites b) as [Hfits Hover].
    destruct (decide (length bytes ≤ length b)) as [Hle|Hgt].
    + rewrite (Hfits Hle), result_bind_Ok.
      rewrite drop_app_length.
      destruct (IH (drop (length bytes) b)) as [Hfits' Hover'].
      rewrite length_drop in Hfits', Hover'. split.
      * intros Hall. rewrite Hfits' by lia. rewrite result_bind_Ok.
        rewrite take_app_length, drop_drop. by rewrite <- app_assoc, (Nat.add_comm (length bytes)).
      * intros Hall. destruct Hover' as [e ->]; [lia|]. by exists e.
    + split; [lia|]. intros _. destruct Hover as [e ->]; [lia|]. by exists e.
Qed.

Lemma IdlCoder_struct_Writes (fields : list Layout) (name : string) (src : value)
    (bss : list Buffer) :
  Forall2 (fun fd bytes => ∃ fv,
    getProp src (default "undefined" (property fd)) = Ok fv ∧ Writes fd fv bytes)
    fields bss →
  Writes (IdlCoder.struct fields name) src (concat bss).
Proof. intros Hfields b. by apply structEncode_Writes. Qed.

(** ** The modelled layouts read what they write *)

Module IdlCoderFacts.
Import IdlCoder.
Local Open Scope Z_scope.












Section roundtrip.
Context `{Externals}.
Variable types : list IdlTypeDef.

Local Opaque integers.



End roundtrip.


Section structs.
Context `{Externals}.
Variable types : list IdlTypeDef.


End structs.

End IdlCoderFacts.

Section field_layouts.
Context `{Externals}.
Variable types : list IdlTypeDef.



End field_layouts.

(** ** What is encoded is decoded *)

Section round_trip.
Context `{Externals} `{!ExternalsLaws}.


End round_trip.

(** * The properties on the executable packages *)

(** The constructor returns on a schema: checked by running it. *)
Ltac constructed idl this Hthis :=
  destruct (constructor idl) as [this|?] eqn:Hthis;
  [|exfalso;
    assert (isOk (constructor idl) = true) as Hok by (vm_compute; reflexivity);
    rewrite Hthis in Hok; discriminate Hok].

(** A fact about a constructed codec, obtained by running the constructor
    and what follows it. *)
Ltac run_with Hthis H :=
  rewrite Hthis, result_bind_Ok in H.

Lemma decode_unknown_discriminator_empty :
  ∃ this,
    constructor Examples.transferIdl = Ok this
    ∧ decode this (IxBuffer []) hex = Ok None.
Proof.
  constructed Examples.transferIdl this Hthis.
  exists this. split; [done|].
  apply (decode_unknown_discriminator Examples.transferIdl this [] hex Hthis).
  intros i Hi Heq. apply (f_equal length) in Heq.
  rewrite discriminatorOf_length in Heq.
  unfold subarray in Heq. rewrite take_nil, drop_nil in Heq.
  apply elem_of_cons in Hi as [->|Hi]; [by vm_compute in Heq|].
  apply elem_of_cons in Hi as [->|Hi]; [by vm_compute in Heq|].
  by apply elem_of_nil in Hi.
Defined.

(** C4 as stated does not hold: the codec of the example has discriminators
    of 8 bytes; on a buffer of 3 bytes [decode] returns [null], it does not
    throw. *)
Lemma decode_short_buffer_null :
  (this ← constructor Examples.transferIdl; Ok (discriminatorLength this)) = Ok (Some 8)
  ∧ length Examples.shortBuffer = 3
  ∧ (this ← constructor Examples.transferIdl;
     decode this (IxBuffer Examples.shortBuffer) hex) = Ok None.
Proof. by vm_compute. Qed.

Lemma decode_short_buffer_example :
  ∃ this,
    constructor Examples.transferIdl = Ok this
    ∧ decode this (IxBuffer Examples.shortBuffer) hex = Ok None.
Proof.
  constructed Examples.transferIdl this Hthis.
  exists this. split; [done|].
  assert ((this ← constructor Examples.transferIdl; Ok (discriminatorLength this))
          = Ok (Some 8)) as Hlen by (by vm_compute).
  run_with Hthis Hlen. injection Hlen as Hlen.
  apply (decode_short_buffer Examples.transferIdl this Examples.shortBuffer hex 8 Hthis);
    [|done|simpl; lia].
  intros i Hi.
  apply elem_of_cons in Hi as [->|Hi]; [done|].
  apply elem_of_cons in Hi as [->|Hi]; [done|].
  by apply elem_of_nil in Hi.
Defined.

Lemma transfer_other_name :
  ∀ y, y ∈ [Examples.transfer] → ix_name y ≠ ix_name Examples.initialize.
Proof.
  intros y Hy. apply elem_of_cons in Hy as [->|Hy]; [discriminate|].
  by apply elem_of_nil in Hy.
Qed.

(** The discriminator of "initialize". *)
Lemma sighash_discriminator_initialize :
  ∃ this,
    constructor Examples.transferIdl = Ok this
    ∧ discriminatorLength this = Some 8
    ∧ ixDiscriminator this !! ix_name Examples.initialize
      = Some (Buffer_from [175; 175; 109; 31; 13; 152; 155; 237]%Z).
Proof.
  constructed Examples.transferIdl this Hthis.
  exists this. split; [reflexivity|].
  pose proof (sighash_discriminator Examples.transferIdl this Examples.initialize Hthis
                (list_elem_of_here _ _) eq_refl) as Hsighash.
  destruct Hsighash as (_ & _ & Hlen & Hkept).
  split; [exact Hlen|].
  rewrite (Hkept [] [Examples.transfer] eq_refl transfer_other_name).
  vm_compute. reflexivity.
Defined.

Lemma constructor_empty_discriminant_ping :
  ∃ this,
    constructor Examples.pingIdl = Ok this ∧ discriminatorLength this = Some 8.
Proof.
  destruct (parseIxLayout Examples.pingIdl) as [layouts|e] eqn:Hparse.
  - by destruct (constructor_empty_discriminant Examples.pingIdl layouts
                   Examples.ping Examples.initialize Hparse eq_refl eq_refl eq_refl)
      as [_ Hthis].
  - exfalso. assert (isOk (parseIxLayout Examples.pingIdl) = true) as Hok by (by vm_compute).
    by rewrite Hparse in Hok.
Defined.






Lemma transfer_discriminator_length : (discriminatorOf Examples.transfer).2 ≠ 0.
Proof. intros Hlen. vm_compute in Hlen. discriminate Hlen. Qed.



Lemma transferBytes_fit : length Examples.transferBytes ≤ 1000.
Proof. simpl. lia. Qed.


Lemma fieldLayout_resolved (field : IdlField) (tys : list IdlTypeDef) :
  IdlCoder.resolve tys IdlCoder.depth (f_type field) = Ok tt →
  fieldLayout field tys
  = Ok (IdlCoder.layoutOf (Some (f_name field))
          (IdlCoder.ser tys IdlCoder.depth (f_type field))
          (IdlCoder.de tys IdlCoder.depth (f_type field))).
Proof.
  intros Hresolve. change (fieldLayout field tys) with (IdlCoder.fieldLayout field tys).
  unfold IdlCoder.fieldLayout. by rewrite Hresolve.
Qed.

Lemma transfer_camelCase_last :
  ∀ y, y ∈ [] → camelCase (ix_name y) ≠ camelCase (ix_name Examples.transfer).
Proof. intros y Hy. by apply elem_of_nil in Hy. Qed.

(** The layout the codec of the example keeps for "transfer" writes the
    eight bytes of the amount, then the count and the bytes of the memo. *)
Lemma transfer_layout_Writes (this : t) (amount : Z) (memo : list value)
    (amountBytes memoBytes : Buffer) :
  constructor Examples.transferIdl = Ok this →
  IdlCoder.encodeInt false 8 (VNum amount) = Ok amountBytes →
  IdlCoder.ser [Examples.State] IdlCoder.depth (IdlTypeVec (IdlTypePrim "u8")) (VArr memo)
  = Ok memoBytes →
  ∃ l, ixLayout this !! camelCase (ix_name Examples.transfer) = Some l
       ∧ Writes l (VObj [("amount", VNum amount); ("memo", VArr memo)])
           (amountBytes ++ memoBytes).
Proof.
  intros Hthis Hamount Hmemo.
  destruct (constructor_Ok Examples.transferIdl this Hthis)
    as (layouts & Hparse & _ & Hlayouts & _).
  destruct (parseIxLayout_lookup Examples.transferIdl layouts [Examples.initialize] []
              Examples.transfer Hparse eq_refl transfer_camelCase_last)
    as (fieldLayouts & Hfields & Hlookup).
  change (ix_args Examples.transfer)
    with [ {| f_name := "amount"; f_type := IdlTypePrim "u64" |};
           {| f_name := "memo"; f_type := IdlTypeVec (IdlTypePrim "u8") |} ] in Hfields.
  change (default [] (accounts Examples.transferIdl) ++ default [] (types Examples.transferIdl))
    with [Examples.State] in Hfields.
  rewrite !mapM_cons in Hfields.
  rewrite (fieldLayout_resolved {| f_name := "amount"; f_type := IdlTypePrim "u64" |}
             [Examples.State]) in Hfields by (vm_compute; reflexivity).
  rewrite (fieldLayout_resolved
             {| f_name := "memo"; f_type := IdlTypeVec (IdlTypePrim "u8") |}
             [Examples.State]) in Hfields by (vm_compute; reflexivity).
  rewrite mapM_Ok_nil, !result_bind_Ok in Hfields. injection Hfields as <-.
  eexists. split; [by rewrite Hlayouts|].
  replace (amountBytes ++ memoBytes) with (concat [amountBytes; memoBytes])
    by (simpl; by rewrite app_nil_r).
  apply IdlCoder_struct_Writes.
  constructor; [|constructor; [|constructor]].
  - exists (VNum amount). split; [reflexivity|]. by apply layoutOf_Writes.
  - exists (VArr memo). split; [reflexivity|]. by apply layoutOf_Writes.
Qed.


(** ** What the conditions of the round trip exclude *)

(** A name that is not in camel case: the layout is kept under the name in
    camel case and the discriminator under the name as it is, and [encode]
    finds no discriminator. *)
Lemma encode_snake_case_name :
  (this ← constructor Examples.snakeIdl; encode this "do_thing" (VObj []))
  = Err (Error "Unknown method: doThing").
Proof. vm_compute. reflexivity. Qed.

(** Two instructions with one discriminator: what is encoded for the first
    is decoded as the second. *)
Lemma decode_twin_discriminator :
  (this ← constructor Examples.twinIdl;
   bytes ← encode this "first" (VObj []);
   decode this (IxBuffer bytes) hex)
  = Ok (Some {| name := "second"; data := VObj [] |}).
Proof. vm_compute. reflexivity. Qed.

(** An empty discriminant before discriminators of 8 bytes: [decode] takes
    the 8 bytes of the argument for a discriminator, and finds none. *)
Lemma decode_ping :
  (this ← constructor Examples.pingIdl; Ok (discriminatorLength this)) = Ok (Some 8)
  ∧ (this ← constructor Examples.pingIdl;
     encode this "ping" (VObj [("count", VNum 5)]))
    = Ok (Buffer_from [5; 0; 0; 0; 0; 0; 0; 0]%Z)
  ∧ (this ← constructor Examples.pingIdl;
     bytes ← encode this "ping" (VObj [("count", VNum 5)]);
     decode this (IxBuffer bytes) hex) = Ok None.
Proof. split; [|split]; vm_compute; reflexivity. Qed.

(** [sentenceCase] puts a space before every capital letter, the first one
    included. *)
Lemma sentenceCase_examples :
  sentenceCase "systemProgram" = "System Program"
  ∧ sentenceCase "owner" = "Owner"
  ∧ sentenceCase "Authority" = " Authority"
  ∧ sentenceCase "" = "".
Proof. by vm_compute. Qed.

(** * Further properties

    Lists, maps and [mapM]. *)

Lemma Map_of_lookup_None {A} (entries : list (string * A)) (key : string) :
  (∀ e, e ∈ entries → e.1 ≠ key) → Map_of entries !! key = None.
Proof.
  intros Hentries. unfold Map_of.
  by rewrite (foldl_insert_lookup_other fst snd entries ∅ key Hentries).
Qed.

Lemma filter_elem_nonempty {A} (P : A → Prop) `{!∀ x, Decision (P x)} (l : list A) (x : A) :
  x ∈ l → P x → filter P l ≠ [].
Proof.
  intros Hx HP Hnil.
  assert (x ∈ filter P l) as Hin by (by apply list_elem_of_filter).
  rewrite Hnil in Hin. by apply elem_of_nil in Hin.
Qed.

Lemma filter_none_nil {A} (P : A → Prop) `{!∀ x, Decision (P x)} (l : list A) :
  (∀ x, x ∈ l → ¬ P x) → filter P l = [].
Proof.
  intros Hl. destruct (filter P l) as [|x rest] eqn:Hfilter; [done|].
  assert (x ∈ filter P l) as Hin by (rewrite Hfilter; by left).
  apply list_elem_of_filter in Hin as [HP Hx]. by destruct (Hl x Hx).
Qed.

Lemma mapM_map_total {A B C} (f : B → result C) (h : A → B) (g : A → C) (l : list A) :
  (∀ a, a ∈ l → f (h a) = Ok (g a)) → mapM f (map h l) = Ok (map g l).
Proof.
  induction l as [|a l IH]; intros Hf; [done|].
  simpl map. rewrite mapM_cons, (Hf a) by left. rewrite result_bind_Ok.
  rewrite IH; [done|]. intros b Hb. apply Hf. by right.
Qed.

(** A call that throws makes [mapM] throw, that error or an earlier one. *)
Lemma mapM_elem_throws {A B} (f : A → result B) (l : list A) (a : A) (e : exn) :
  a ∈ l → f a = Err e → ∃ e', mapM f l = Err e'.
Proof.
  induction l as [|b l IH]; intros Ha Hf; [by apply elem_of_nil in Ha|].
  rewrite mapM_cons. destruct (f b) as [y|e1] eqn:Hb; [|by exists e1].
  apply elem_of_cons in Ha as [->|Ha]; [congruence|].
  destruct (IH Ha Hf) as [e' ->]. by exists e'.
Qed.

Lemma assoc_NoDup {A} (props : list (string * A)) (k : string) (a : A) :
  NoDup (map fst props) → (k, a) ∈ props → assoc k props = Some a.
Proof.
  induction props as [|[k' a'] props IH]; intros Hnodup Hin; [by apply elem_of_nil in Hin|].
  apply NoDup_cons in Hnodup as [Hnotin Hnodup]. simpl.
  apply elem_of_cons in Hin as [[= -> ->]|Hin].
  - by rewrite String.eqb_refl.
  - destruct (String.eqb_spec k' k) as [->|Hne]; [|by apply IH].
    destruct Hnotin. apply list_elem_of_fmap. by exists (k, a).
Qed.


(** ** More about the constructor and the tables it fills *)

Section codec.
Context `{Externals} `{LayoutLib}.

(** No layout is kept under a name that is the camel case of no
    instruction's name. *)
Lemma parseIxLayout_lookup_None (idl : Idl) (layouts : gmap string Layout) (key : string) :
  parseIxLayout idl = Ok layouts →
  (∀ ix, ix ∈ instructions idl → camelCase (ix_name ix) ≠ key) →
  layouts !! key = None.
Proof.
  unfold parseIxLayout. intros (entries & Hentries & [= <-])%bind_Ok Hixs.
  apply Map_of_lookup_None. intros e He.
  apply mapM_Ok_Forall2 in Hentries.
  apply (list_elem_of_lookup_1 _ _) in He as [i He].
  destruct (Forall2_lookup_r _ _ _ _ _ Hentries He) as (ix & Hix & Hrun).
  apply bind_Ok in Hrun as (fls & _ & [= <-]). simpl.
  apply Hixs. by apply (list_elem_of_lookup_2 _ i).
Qed.

Lemma discriminatorsOf_lookup_None (ixs : list IdlInstruction) (key : string) :
  (∀ ix, ix ∈ ixs → ix_name ix ≠ key) → discriminatorsOf ixs ∅ !! key = None.
Proof.
  intros Hixs. unfold discriminatorsOf.
  by rewrite foldl_insert_lookup_other.
Qed.

(** X1: the codec the constructor returns has one discriminator length: any
    two instructions whose discriminators are not empty have discriminators
    of the same length, and this length is the discriminator length of the
    codec. *)
Theorem constructor_discriminator_lengths :
  ∀ (idl : Idl) (this : t) (a b : IdlInstruction),
    constructor idl = Ok this →
    a ∈ instructions idl →
    b ∈ instructions idl →
    (discriminatorOf a).2 ≠ 0 →
    (discriminatorOf b).2 ≠ 0 →
    (discriminatorOf a).2 = (discriminatorOf b).2
    ∧ discriminatorLength this = Some (discriminatorOf a).2.
Proof.
  intros idl this a b Hthis Ha Hb Hlen_a Hlen_b.
  destruct (constructor_Ok idl this Hthis) as (layouts & _ & _ & _ & _ & _ & Hlen).
  pose proof (Hlen a Ha Hlen_a) as Hlength_a.
  pose proof (Hlen b Hb Hlen_b) as Hlength_b.
  split; [|exact Hlength_a].
  rewrite Hlength_a in Hlength_b. by injection Hlength_b.
Qed.

(** X3: [encode] throws "Unknown method" for a name whose camel case is the
    camel case of no instruction's name, and also for a name whose camel
    case is no instruction's name as the IDL writes it: the layouts are kept
    under the names in camel case, the discriminators under the names as
    written, and both are looked up with the camel case of the argument. *)
Theorem encode_unknown_method :
  ∀ (idl : Idl) (this : t) (ixName : string) (v : value),
    constructor idl = Ok this →
    (∀ ix, ix ∈ instructions idl → camelCase (ix_name ix) ≠ camelCase ixName)
    ∨ (∀ ix, ix ∈ instructions idl → ix_name ix ≠ camelCase ixName) →
    encode this ixName v = Err (Error ("Unknown method: " +:+ camelCase ixName)).
Proof.
  intros idl this ixName v Hthis Hnone.
  destruct (constructor_Ok idl this Hthis) as (layouts & Hparse & _ & Hlayouts & _ & Hdiscs & _).
  unfold encode, _encode. destruct Hnone as [Hcamel|Hraw].
  - by rewrite Hlayouts, (parseIxLayout_lookup_None idl layouts _ Hparse Hcamel).
  - rewrite Hdiscs, (discriminatorsOf_lookup_None _ _ Hraw).
    by destruct (ixLayout this !! camelCase ixName).
Qed.

(** X17: the codec of an IDL without instructions: the constructor returns,
    no discriminator length is set, [decode] returns [null] on every buffer
    and [encode] throws "Unknown method" for every name. *)
Theorem constructor_no_instructions :
  ∀ idl : Idl,
    instructions idl = [] →
    ∃ this, constructor idl = Ok this
      ∧ discriminatorLength this = None
      ∧ (∀ ix encoding, decode this (IxBuffer ix) encoding = Ok None)
      ∧ (∀ ixName v,
           encode this ixName v = Err (Error ("Unknown method: " +:+ camelCase ixName))).
Proof.
  intros idl Hixs. unfold constructor, parseIxLayout. rewrite Hixs. simpl.
  eexists. split; [reflexivity|]. split; [reflexivity|]. split.
  - intros ix encoding. reflexivity.
  - intros ixName v. reflexivity.
Qed.

(** X18: the constructor throws when [IdlCoder.fieldLayout] throws on an
    argument of an instruction. *)
Theorem constructor_fieldLayout_throws :
  ∀ (idl : Idl) (ix : IdlInstruction) (arg : IdlField) (e : exn),
    ix ∈ instructions idl →
    arg ∈ ix_args ix →
    fieldLayout arg (default [] (accounts idl) ++ default [] (types idl)) = Err e →
    ∃ e', constructor idl = Err e'.
Proof.
  intros idl ix arg e Hix Harg Hthrows.
  destruct (constructor idl) as [this|e'] eqn:Hthis; [exfalso|by exists e'].
  destruct (constructor_Ok idl this Hthis) as (layouts & Hparse & _).
  unfold parseIxLayout in Hparse.
  apply bind_Ok in Hparse as (entries & Hentries & _).
  apply mapM_Ok_Forall2 in Hentries.
  apply (list_elem_of_lookup_1 _ _) in Hix as [i Hi].
  destruct (Forall2_lookup_l _ _ _ _ _ Hentries Hi) as (entry & _ & Hrun).
  apply bind_Ok in Hrun as (fls & Hfls & _).
  apply mapM_Ok_Forall2 in Hfls.
  apply (list_elem_of_lookup_1 _ _) in Harg as [j Hj].
  destruct (Forall2_lookup_l _ _ _ _ _ Hfls Hj) as (l & _ & Hl).
  rewrite Hthrows in Hl. discriminate Hl.
Qed.

End codec.

(** ** More about [decode] *)

Section decoding.
Context `{Externals} `{LayoutLib}.

(** [format] finds an instruction that has the name it is given. *)
Lemma format_known_name (fuel : nat) (ix : Instruction) (accountMetas : list AccountMeta)
    (idl : Idl) (i : IdlInstruction) :
  i ∈ instructions idl → ix_name i = name ix →
  InstructionFormatter.format fuel ix accountMetas idl ≠ Ok None.
Proof.
  intros Hi Hname. unfold InstructionFormatter.format.
  destruct (filter (fun i => name ix = ix_name i) (instructions idl))
    as [|idlIx rest] eqn:Hfilter.
  - by destruct (filter_elem_nonempty (fun i => name ix = ix_name i) _ i Hi (eq_sym Hname)).
  - by destruct (mapM (formatArg fuel ix idl) (ix_args idlIx)) as [args|e].
Qed.

(** X7: [format] returns [null] exactly when no instruction of the IDL has
    the name of the instruction it is given. *)
Theorem format_null_iff_unknown_name :
  ∀ (fuel : nat) (ix : Instruction) (accountMetas : list AccountMeta) (idl : Idl),
    InstructionFormatter.format fuel ix accountMetas idl = Ok None
    ↔ ∀ i, i ∈ instructions idl → ix_name i ≠ name ix.
Proof.
  intros fuel ix accountMetas idl. split.
  - intros Hnull i Hi Hname.
    by apply (format_known_name fuel ix accountMetas idl i Hi Hname).
  - intros Hnone. unfold InstructionFormatter.format. rewrite filter_none_nil; [done|].
    intros i Hi Hname. by apply (Hnone i Hi).
Qed.

(** X6: an instruction that [decode] returns has the name of an instruction
    of the IDL, so [format] does not answer [null] for it. *)
Theorem decode_then_format :
  ∀ (idl : Idl) (this : t) (input : IxInput) (encoding : Encoding) (ix : Instruction)
    (fuel : nat) (accountMetas : list AccountMeta),
    constructor idl = Ok this →
    decode this input encoding = Ok (Some ix) →
    (∃ i, i ∈ instructions idl ∧ ix_name i = name ix)
    ∧ format fuel this ix accountMetas ≠ Ok None.
Proof.
  intros idl this input encoding ix fuel accountMetas Hthis Hdecode.
  destruct (constructor_Ok idl this Hthis) as (layouts & _ & Hidl & _ & Hdecoders & _).
  assert (∃ i, i ∈ instructions idl ∧ ix_name i = name ix) as (i & Hi & Hname).
  { unfold decode in Hdecode. apply bind_Ok in Hdecode as (b & _ & Hdecode).
    destruct (discriminatorLayouts this !! _) as [decoder|] eqn:Hlookup; [|discriminate Hdecode].
    destruct (layout decoder) as [l|]; [|discriminate Hdecode].
    apply bind_Ok in Hdecode as (d & _ & [= <-]). simpl.
    rewrite Hdecoders in Hlookup. unfold decodersOf in Hlookup.
    apply foldl_insert_lookup_Some in Hlookup as [Hempty|(x & Hx & _ & <-)].
    - by rewrite lookup_empty in Hempty.
    - by exists x. }
  split; [by exists i|].
  unfold format. rewrite Hidl. by apply (format_known_name fuel ix accountMetas idl i).
Qed.

(** X22: what [encode] returns starts with the discriminator of an
    instruction whose name, as the IDL writes it, is the camel case of the
    name [encode] is given. *)
Theorem encode_starts_with_discriminator :
  ∀ (idl : Idl) (this : t) (ixName : string) (v : value) (bytes : Buffer),
    constructor idl = Ok this →
    encode this ixName v = Ok bytes →
    ∃ i body, i ∈ instructions idl
      ∧ ix_name i = camelCase ixName
      ∧ bytes = (discriminatorOf i).1 ++ body.
Proof.
  intros idl this ixName v bytes Hthis Hencode.
  destruct (constructor_Ok idl this Hthis) as (layouts & _ & _ & _ & _ & Hdiscs & _).
  unfold encode, _encode in Hencode.
  destruct (ixLayout this !! camelCase ixName) as [l|]; [|discriminate Hencode].
  destruct (ixDiscriminator this !! camelCase ixName) as [discriminator|] eqn:Hlookup;
    [|discriminate Hencode].
  apply bind_Ok in Hencode as ([len buffer] & _ & [= <-]).
  rewrite Hdiscs in Hlookup. unfold discriminatorsOf in Hlookup.
  apply foldl_insert_lookup_Some in Hlookup as [Hempty|(i & Hi & Hname & <-)].
  - by rewrite lookup_empty in Hempty.
  - by exists i, (subarray buffer 0 len).
Qed.

Context `{!ExternalsLaws}.

(** The entry of the decoding table that [decode] finds for a buffer that
    starts with the discriminator of an instruction, the last with this
    discriminator. *)
Lemma decode_at_discriminator (idl : Idl) (this : t) (pre post : list IdlInstruction)
    (ix : IdlInstruction) (body : Buffer) (encoding : Encoding) :
  constructor idl = Ok this →
  instructions idl = pre ++ ix :: post →
  (discriminatorOf ix).2 ≠ 0 →
  (∀ y, y ∈ post → (discriminatorOf y).1 ≠ (discriminatorOf ix).1) →
  decode this (IxBuffer ((discriminatorOf ix).1 ++ body)) encoding
  = match ixLayout this !! ix_name ix with
    | None => Err TypeError
    | Some l => d ← layout_decode l body; Ok (Some {| name := ix_name ix; data := d |})
    end.
Proof.
  intros Hthis Hixs Hnz Hpost.
  destruct (constructor_Ok idl this Hthis)
    as (layouts & _ & _ & Hlayouts & Hdecoders & _ & Hlen).
  assert (ix ∈ instructions idl) as Hix
    by (rewrite Hixs, elem_of_app, elem_of_cons; auto).
  specialize (Hlen ix Hix Hnz).
  unfold decode. rewrite result_bind_Ok, Hlen. simpl default.
  unfold subarray, subarray_from.
  rewrite drop_0, <- discriminatorOf_length, take_app_length, drop_app_length.
  rewrite Hdecoders, Hixs. unfold decodersOf.
  rewrite (foldl_insert_lookup_last (fun ix => bs58_encode (discriminatorOf ix).1)
             (fun ix => {| layout := layouts !! ix_name ix;
                           decoder_name := ix_name ix |})).
  - simpl. rewrite <- Hlayouts. by destruct (ixLayout this !! ix_name ix).
  - intros y Hy Heq. apply bs58_encode_inj in Heq. by apply (Hpost y Hy).
Qed.

(** X4: a buffer that starts with the discriminator of an instruction is
    decoded as the last instruction of the IDL with this discriminator: the
    bytes after the discriminator are read by the layout kept for it, what
    the layout throws [decode] throws, and the instruction returned has the
    name the IDL gives. *)
Theorem decode_known_discriminator :
  ∀ (idl : Idl) (this : t) (pre post : list IdlInstruction) (ix : IdlInstruction)
    (l : Layout) (body : Buffer) (encoding : Encoding),
    constructor idl = Ok this →
    instructions idl = pre ++ ix :: post →
    (discriminatorOf ix).2 ≠ 0 →
    (∀ y, y ∈ post → (discriminatorOf y).1 ≠ (discriminatorOf ix).1) →
    ixLayout this !! ix_name ix = Some l →
    decode this (IxBuffer ((discriminatorOf ix).1 ++ body)) encoding
    = d ← layout_decode l body; Ok (Some {| name := ix_name ix; data := d |}).
Proof.
  intros idl this pre post ix l body encoding Hthis Hixs Hnz Hpost Hl.
  rewrite (decode_at_discriminator idl this pre post ix body encoding Hthis Hixs Hnz Hpost).
  by rewrite Hl.
Qed.


(** X19: the layout the codec keeps under the camel case of the name of an
    instruction, the last with this camel case, is the structure of the
    layouts [IdlCoder.fieldLayout] gives for its arguments, resolved among
    the accounts of the IDL followed by its types. *)
Theorem constructor_layout :
  ∀ (idl : Idl) (this : t) (pre post : list IdlInstruction) (ix : IdlInstruction),
    constructor idl = Ok this →
    instructions idl = pre ++ ix :: post →
    (∀ y, y ∈ post → camelCase (ix_name y) ≠ camelCase (ix_name ix)) →
    ∃ fieldLayouts,
      mapM (fun arg => fieldLayout arg (default [] (accounts idl) ++ default [] (types idl)))
        (ix_args ix) = Ok fieldLayouts
      ∧ ixLayout this !! camelCase (ix_name ix)
        = Some (struct fieldLayouts (camelCase (ix_name ix))).
Proof.
  intros idl this pre post ix Hthis Hixs Hpost.
  destruct (constructor_Ok idl this Hthis) as (layouts & Hparse & _ & Hlayouts & _).
  rewrite Hlayouts. by apply (parseIxLayout_lookup idl layouts pre post).
Qed.

End decoding.

(** ** More about the rendering of values *)

Section rendering.
Context `{Externals}.

(** X10: a defined type that the table of types does not hold, or holds
    more than once, is reported as not found. *)
Theorem formatIdlData_type_not_found :
  ∀ (fuel : nat) (name defined : string) (data : value) (types : list IdlTypeDef),
    length (filter (fun t => td_name t = defined) types) ≠ 1 →
    formatIdlData (S fuel) {| f_name := name; f_type := IdlTypeDefined defined |}
      data (Some types)
    = Err (Error ("Type not found: " +:+ defined)).
Proof.
  intros fuel name defined data types Hlength. simpl.
  by destruct (filter (fun t => td_name t = defined) types) as [|t [|t' rest]].
Qed.

(** X11: a value of a struct whose keys name fields of primitive types is
    rendered between braces, key by key in the order of the value, each key
    followed by the text of its value. *)
Theorem formatIdlData_struct_of_primitives :
  ∀ (fuel : nat) (name defined : string) (typeDef : IdlTypeDef) (fields : list IdlField)
    (types : list IdlTypeDef) (props : list (string * value)),
    filter (fun t => td_name t = defined) types = [typeDef] →
    td_type typeDef = IdlTypeDefTyStruct fields →
    NoDup (map fst props) →
    Forall (fun kv =>
      kv.2 ≠ VNull ∧ kv.2 ≠ VUndefined
      ∧ ∃ f label, head (filter (fun f => f_name f = kv.1) fields) = Some f
                   ∧ f_type f = IdlTypePrim label) props →
    formatIdlData (S (S fuel)) {| f_name := name; f_type := IdlTypeDefined defined |}
      (VObj props) (Some types)
    = Ok ("{ " +:+ String.concat ", " (map (fun kv => kv.1 +:+ ": " +:+ toStr kv.2) props)
          +:+ " }").
Proof.
  intros fuel name defined typeDef fields types props Hfilter Hstruct Hnodup Hprops.
  cbn [formatIdlData f_type]. rewrite Hfilter. unfold formatIdlDataDefined. rewrite Hstruct.
  cbn [objectKeys]. rewrite result_bind_Ok.
  rewrite (mapM_map_total _ fst (fun kv => kv.1 +:+ ": " +:+ toStr kv.2)); [done|].
  intros [k v] Hkv. rewrite Forall_forall in Hprops.
  destruct (Hprops (k, v) Hkv) as (Hnull & Hundef & f & label & Hhead & Hprim).
  simpl in *.
  destruct (filter (fun f => f_name f = k) fields) as [|f' rest]; [discriminate Hhead|].
  injection Hhead as ->. rewrite (assoc_NoDup props k v Hnodup Hkv). simpl.
  rewrite Hprim. by destruct v.
Qed.

(** X12: a value of a struct with a key that names no field of the struct
    is not rendered: the formatter throws. *)
Theorem formatIdlData_struct_unknown_key :
  ∀ (fuel : nat) (name defined : string) (typeDef : IdlTypeDef) (fields : list IdlField)
    (types : list IdlTypeDef) (props : list (string * value)) (k : string),
    filter (fun t => td_name t = defined) types = [typeDef] →
    td_type typeDef = IdlTypeDefTyStruct fields →
    k ∈ map fst props →
    (∀ f, f ∈ fields → f_name f ≠ k) →
    ∃ e, formatIdlData (S fuel) {| f_name := name; f_type := IdlTypeDefined defined |}
           (VObj props) (Some types) = Err e.
Proof.
  intros fuel name defined typeDef fields types props k Hfilter Hstruct Hk Hfields.
  cbn [formatIdlData f_type]. rewrite Hfilter. unfold formatIdlDataDefined. rewrite Hstruct.
  cbn [objectKeys]. rewrite result_bind_Ok.
  destruct (mapM_elem_throws
              (fun k => match filter (fun f => f_name f = k) fields with
                        | [] => Err (Error "Unable to find type")
                        | f :: _ =>
                            d ← getProp (VObj props) k;
                            s ← formatIdlData fuel f d (Some types);
                            Ok (k +:+ ": " +:+ s)
                        end)
              (map fst props) k (Error "Unable to find type") Hk) as [e ->].
  - rewrite filter_none_nil; [done|]. intros f Hf. by apply Hfields.
  - by exists e.
Qed.

(** X13: a value of an enum whose variant carries a field is not rendered,
    whatever the enum and the variant: the formatter looks the fields of
    the variant up in the array of variants under the variant's name, and
    throws. *)
Theorem formatIdlData_enum_fields_throw :
  ∀ (fuel : nat) (name defined : string) (typeDef : IdlTypeDef) (first : IdlEnumVariant)
    (variants : list IdlEnumVariant) (types : list IdlTypeDef)
    (variant f : string) (fd : value) (fields : list (string * value)),
    filter (fun t => td_name t = defined) types = [typeDef] →
    td_type typeDef = IdlTypeDefTyEnum (first :: variants) →
    v_name first ≠ "" →
    formatIdlData (S fuel) {| f_name := name; f_type := IdlTypeDefined defined |}
      (VObj [(variant, VObj ((f, fd) :: fields))]) (Some types)
    = Err (Error "Unable to find variant")
    ∨ formatIdlData (S fuel) {| f_name := name; f_type := IdlTypeDefined defined |}
        (VObj [(variant, VObj ((f, fd) :: fields))]) (Some types)
      = Err TypeError.
Proof.
  intros fuel name defined [tname ty] [vname vf] variants types variant f fd fields
    Hfilter Hty Hname.
  simpl in Hty, Hname. subst ty. destruct vname as [|c s]; [done|].
  cbn [formatIdlData f_type]. rewrite Hfilter.
  apply (formatIdlDataDefined_struct_variant_throws fuel tname c s vf variants types).
Qed.

(** X14: a value of an enum whose first key holds an object without keys is
    rendered as this key in Pascal case; the key is not looked up among the
    variants of the enum, and the keys after the first are not read. *)
Theorem formatIdlData_enum_unit_variant :
  ∀ (fuel : nat) (name defined : string) (typeDef : IdlTypeDef) (first : IdlEnumVariant)
    (variants : list IdlEnumVariant) (types : list IdlTypeDef)
    (variant : string) (others : list (string * value)),
    filter (fun t => td_name t = defined) types = [typeDef] →
    td_type typeDef = IdlTypeDefTyEnum (first :: variants) →
    v_name first ≠ "" →
    formatIdlData (S fuel) {| f_name := name; f_type := IdlTypeDefined defined |}
      (VObj ((variant, VObj []) :: others)) (Some types)
    = Ok (camelCasePascal variant).
Proof.
  intros fuel name defined typeDef [vname vf] variants types variant others
    Hfilter Hty Hname.
  simpl in Hname. destruct vname as [|c s]; [done|].
  cbn [formatIdlData f_type]. rewrite Hfilter. unfold formatIdlDataDefined. rewrite Hty.
  cbn [truthy v_name objectKeys map fst head default].
  rewrite result_bind_Ok, getProp_head, result_bind_Ok. reflexivity.
Qed.


End rendering.

(** ** More about the names of accounts *)

(** X16: flattening keeps the accounts and their flags: the flattened list
    has the leaves of the tree, in order, each with its two flags, whatever
    the prefix. *)
Theorem flattenIdlAccounts_flags :
  ∀ (accounts : list IdlAccountItem) (prefix : option string),
    map (fun a => (fa_isMut a, fa_isSigner a)) (flattenIdlAccounts accounts prefix)
    = concat (map leafFlags accounts).
Proof.
  assert (∀ account prefix,
            map (fun a => (fa_isMut a, fa_isSigner a)) (flattenIdlAccount prefix account)
            = leafFlags account) as Hone.
  { induction account as [n isMut isSigner|n accounts IH] using IdlAccountItem_nested_ind;
      intros prefix; [done|].
    cbn [flattenIdlAccount leafFlags].
    match goal with |- context [flattenIdlAccount ?p] => generalize p end. intros newPrefix.
    induction IH as [|a accounts Ha _ IHaccounts]; [done|].
    simpl. by rewrite map_app, Ha, IHaccounts. }
  intros accounts prefix. unfold flattenIdlAccounts.
  induction accounts as [|a accounts IH]; [done|].
  simpl. by rewrite map_app, Hone, IH.
Qed.

(** ** [sentenceCase] *)

Lemma isUpperAZ_bounds (c : ascii) :
  isUpperAZ c = true ↔ 65 ≤ nat_of_ascii c ≤ 90.
Proof.
  unfold isUpperAZ. rewrite andb_true_iff, !Nat.leb_le. tauto.
Qed.

Lemma isLowerAZ_bounds (c : ascii) :
  isLowerAZ c = true ↔ 97 ≤ nat_of_ascii c ≤ 122.
Proof.
  unfold isLowerAZ. rewrite andb_true_iff, !Nat.leb_le. tauto.
Qed.

(** The capital of a small letter is a capital letter. *)
Lemma toUpperChar_lower (c : ascii) :
  isLowerAZ c = true →
  nat_of_ascii (toUpperChar c) = nat_of_ascii c - 32.
Proof.
  intros Hlower. unfold toUpperChar. rewrite Hlower.
  apply isLowerAZ_bounds in Hlower. apply nat_ascii_embedding. lia.
Qed.

(** On the characters that are not capital letters, [toUpperChar] keeps
    distinct characters distinct. *)
Lemma toUpperChar_inj (c1 c2 : ascii) :
  isUpperAZ c1 = false → isUpperAZ c2 = false →
  toUpperChar c1 = toUpperChar c2 → c1 = c2.
Proof.
  intros Hc1 Hc2 Heq.
  assert (∀ c, isUpperAZ c = false → ¬ (65 ≤ nat_of_ascii c ≤ 90)) as Hnot.
  { intros c Hc Hbounds. apply isUpperAZ_bounds in Hbounds. congruence. }
  apply Hnot in Hc1, Hc2. apply (f_equal nat_of_ascii) in Heq.
  rewrite <- (ascii_nat_embedding c1), <- (ascii_nat_embedding c2). f_equal.
  destruct (isLowerAZ c1) eqn:Hl1, (isLowerAZ c2) eqn:Hl2.
  - rewrite !toUpperChar_lower in Heq by done.
    apply isLowerAZ_bounds in Hl1, Hl2. lia.
  - rewrite toUpperChar_lower in Heq by done. unfold toUpperChar in Heq.
    rewrite Hl2 in Heq. apply isLowerAZ_bounds in Hl1. lia.
  - rewrite (toUpperChar_lower c2) in Heq by done. unfold toUpperChar in Heq.
    rewrite Hl1 in Heq. apply isLowerAZ_bounds in Hl2. lia.
  - unfold toUpperChar in Heq. by rewrite Hl1, Hl2 in Heq.
Qed.

(** The text with its spaces starts with no capital letter. *)
Lemma spaceCapitals_head (s : string) :
  (s = "" ∧ spaceCapitals s = "")
  ∨ ∃ h t, spaceCapitals s = String h t ∧ isUpperAZ h = false.
Proof.
  destruct s as [|c rest]; [by left|]. right. simpl.
  destruct (isUpperAZ c) eqn:Hc.
  - by exists " "%char, (String c (spaceCapitals rest)).
  - by exists c, (spaceCapitals rest).
Qed.

Lemma spaceCapitals_inj (s1 s2 : string) :
  spaceCapitals s1 = spaceCapitals s2 → s1 = s2.
Proof.
  revert s2. induction s1 as [|c1 r1 IH]; intros [|c2 r2]; simpl.
  - done.
  - by destruct (isUpperAZ c2).
  - by destruct (isUpperAZ c1).
  - destruct (isUpperAZ c1) eqn:Hc1, (isUpperAZ c2) eqn:Hc2.
    + intros [= -> Hrest]. f_equal. by apply IH.
    + intros [= <- Hrest]. exfalso.
      destruct r2 as [|d r2]; [done|]. simpl in Hrest.
      destruct (isUpperAZ d) eqn:Hd.
      * injection Hrest as -> _. discriminate Hc1.
      * injection Hrest as -> _. congruence.
    + intros [= -> Hrest]. exfalso.
      destruct r1 as [|d r1]; [done|]. simpl in Hrest.
      destruct (isUpperAZ d) eqn:Hd.
      * injection Hrest as <- _. discriminate Hc2.
      * injection Hrest as <- _. congruence.
    + intros [= -> Hrest]. f_equal. by apply IH.
Qed.

Lemma sentenceCase_cons (s : string) (h : ascii) (t : string) :
  spaceCapitals s = String h t → sentenceCase s = String (toUpperChar h) t.
Proof. unfold sentenceCase. by intros ->. Qed.

Lemma sentenceCase_inj (s1 s2 : string) :
  sentenceCase s1 = sentenceCase s2 → s1 = s2.
Proof.
  intros Heq.
  destruct (spaceCapitals_head s1) as [[-> _]|(h1 & t1 & Hs1 & Hh1)],
           (spaceCapitals_head s2) as [[-> _]|(h2 & t2 & Hs2 & Hh2)].
  - done.
  - by rewrite (sentenceCase_cons s2 h2 t2 Hs2) in Heq.
  - by rewrite (sentenceCase_cons s1 h1 t1 Hs1) in Heq.
  - rewrite (sentenceCase_cons s1 h1 t1 Hs1), (sentenceCase_cons s2 h2 t2 Hs2) in Heq.
    injection Heq as Hhead ->. apply (toUpperChar_inj h1 h2 Hh1 Hh2) in Hhead as ->.
    apply spaceCapitals_inj. by rewrite Hs1, Hs2.
Qed.

(** X15: [sentenceCase] gives distinct names, of ASCII characters, distinct
    texts. *)
Theorem sentenceCase_distinct :
  ∀ field1 field2 : string,
    isAscii field1 = true → isAscii field2 = true →
    field1 ≠ field2 → sentenceCase field1 ≠ sentenceCase field2.
Proof. intros field1 field2 _ _ Hne Heq. by apply Hne, sentenceCase_inj. Qed.

Lemma spaceCapitals_length (s : string) :
  String.length (spaceCapitals s) = String.length s + capitals s.
Proof.
  induction s as [|c rest IH]; [done|].
  simpl. destruct (isUpperAZ c); simpl; rewrite IH; lia.
Qed.

(** X23: [sentenceCase] adds one character for every capital letter of a
    name of ASCII characters, and a name that starts with a capital letter
    gets a text that starts with a space. *)
Theorem sentenceCase_length :
  ∀ field : string,
    isAscii field = true →
    String.length (sentenceCase field) = String.length field + capitals field
    ∧ ∀ c rest, field = String c rest → isUpperAZ c = true →
        sentenceCase field = String " " (String c (spaceCapitals rest)).
Proof.
  intros field _. split.
  - rewrite <- spaceCapitals_length.
    destruct (spaceCapitals_head field) as [[-> _]|(h & t & Hfield & _)]; [done|].
    by rewrite (sentenceCase_cons field h t Hfield), Hfield.
  - intros c rest -> Hc.
    rewrite (sentenceCase_cons (String c rest) " " (String c (spaceCapitals rest))); [done|].
    simpl. by rewrite Hc.
Qed.

(** ** The recursion budget of [formatIdlData] *)




Section budget.
Context `{Externals}.





End budget.

(** ** What [format] keeps *)

Lemma imap_map {A B C} (f : nat → A → B) (g : B → C) (h : A → C) (l : list A) :
  (∀ i a, g (f i a) = h a) → map g (imap f l) = map h l.
Proof.
  intros Hf. revert f Hf. induction l as [|a l IH]; intros f Hf; [done|].
  simpl. rewrite Hf. f_equal. apply IH. intros i b. apply Hf.
Qed.

(** X24: what [format] returns has one entry for every argument of the
    instruction of the IDL, in order and under the argument's name, and one
    account for every entry of the metadata, in order, with its key and its
    two flags. *)
Theorem format_entries `{Externals} :
  ∀ (fuel : nat) (ix : Instruction) (accountMetas : list AccountMeta) (idl : Idl)
    (idlIx : IdlInstruction) (rest : list IdlInstruction) (display : InstructionDisplay),
    filter (fun i => name ix = ix_name i) (instructions idl) = idlIx :: rest →
    InstructionFormatter.format fuel ix accountMetas idl = Ok (Some display) →
    map arg_name (args display) = map f_name (ix_args idlIx)
    ∧ map (fun a => (da_pubkey a, da_isSigner a, da_isWritable a)) (display_accounts display)
      = map (fun meta => (pubkey meta, isSigner meta, isWritable meta)) accountMetas.
Proof.
  intros fuel ix accountMetas idl idlIx rest display Hfilter Hformat.
  unfold InstructionFormatter.format in Hformat. rewrite Hfilter in Hformat.
  apply bind_Ok in Hformat as (rendered & Hargs & [= <-]). simpl. split.
  - apply mapM_Ok_Forall2 in Hargs.
    induction Hargs as [|f a fs rendered Hf _ IH]; [done|].
    simpl. rewrite IH. f_equal. unfold formatArg in Hf.
    apply bind_Ok in Hf as (ty & _ & Hf). apply bind_Ok in Hf as (d & _ & Hf).
    by apply bind_Ok in Hf as (s & _ & [= <-]).
  - by apply imap_map.
Qed.

(** ** The round trip, for any layout *)

Section any_layout.
Context `{Externals} `{LayoutLib} `{!ExternalsLaws}.

(** X25: whatever the layouts are, [decode] undoes [encode] on a value that
    the layout of the instruction writes on at most 1000 bytes and reads
    back from these bytes: for an instruction whose name is in camel case
    and whose discriminator is not empty, the last of the IDL with this name
    and with this discriminator, [encode] returns the discriminator followed
    by the bytes, and [decode] of that returns the name and the value. *)
Theorem encode_decode_any_layout :
  ∀ (idl : Idl) (this : t) (pre post : list IdlInstruction) (ix : IdlInstruction)
    (v : value) (l : Layout) (bytes : Buffer) (encoding : Encoding),
    constructor idl = Ok this →
    instructions idl = pre ++ ix :: post →
    camelCase (ix_name ix) = ix_name ix →
    (discriminatorOf ix).2 ≠ 0 →
    (∀ y, y ∈ post →
       ix_name y ≠ ix_name ix ∧ (discriminatorOf y).1 ≠ (discriminatorOf ix).1) →
    ixLayout this !! ix_name ix = Some l →
    Writes l v bytes →
    length bytes ≤ 1000 →
    layout_decode l bytes = Ok v →
    encode this (ix_name ix) v = Ok ((discriminatorOf ix).1 ++ bytes)
    ∧ decode this (IxBuffer ((discriminatorOf ix).1 ++ bytes)) encoding
      = Ok (Some {| name := ix_name ix; data := v |}).
Proof.
  intros idl this pre post ix v l bytes encoding
    Hthis Hixs Hcamel Hnz Hpost Hl Hwrites Hfits Hreads.
  destruct (Hwrites (Buffer_alloc 1000)) as [Hencode _].
  unfold Buffer_alloc in Hencode at 1. rewrite length_replicate in Hencode.
  specialize (Hencode Hfits).
  pose proof (decode_encode_layout idl this pre post ix v l (length bytes)
                (bytes ++ drop (length bytes) (Buffer_alloc 1000)) encoding
                Hthis Hixs Hcamel Hnz Hpost Hl Hencode) as Hround.
  rewrite take_app_length in Hround. by apply Hround.
Qed.

End any_layout.


(** * The further properties on the examples *)

Lemma initialize_discriminator_length : (discriminatorOf Examples.initialize).2 ≠ 0.
Proof. intros Hlen. vm_compute in Hlen. discriminate Hlen. Qed.

Lemma constructor_discriminator_lengths_transfer :
  ∃ this,
    constructor Examples.transferIdl = Ok this
    ∧ (discriminatorOf Examples.initialize).2 = (discriminatorOf Examples.transfer).2
    ∧ discriminatorLength this = Some (discriminatorOf Examples.initialize).2.
Proof.
  constructed Examples.transferIdl this Hthis.
  exists this. split; [reflexivity|].
  exact (constructor_discriminator_lengths Examples.transferIdl this
           Examples.initialize Examples.transfer Hthis
           (list_elem_of_here _ _) (list_elem_of_further _ _ _ (list_elem_of_here _ _))
           initialize_discriminator_length transfer_discriminator_length).
Defined.

Lemma close_discriminator_length :
  (discriminatorOf Examples.close).2 ≠ (discriminatorOf Examples.initialize).2.
Proof. intros Hlen. vm_compute in Hlen. discriminate Hlen. Qed.

(** A discriminant of one byte after a discriminator of eight. *)
Lemma constructor_length_mismatch_mixed :
  constructor Examples.mixedIdl
  = Err (Error "All instructions must have the same discriminator length").
Proof.
  destruct (parseIxLayout Examples.mixedIdl) as [layouts|e] eqn:Hparse.
  - exact (constructor_length_mismatch Examples.mixedIdl layouts [] [] []
             Examples.initialize Examples.close
             Hparse eq_refl initialize_discriminator_length close_discriminator_length).
  - exfalso. assert (isOk (parseIxLayout Examples.mixedIdl) = true) as Hok by (by vm_compute).
    by rewrite Hparse in Hok.
Defined.

Lemma doThing_not_camelCase :
  ∀ ix, ix ∈ instructions Examples.snakeIdl → ix_name ix ≠ camelCase "do_thing".
Proof.
  intros ix Hix Hname.
  apply elem_of_cons in Hix as [->|Hix]; [by vm_compute in Hname|].
  by apply elem_of_nil in Hix.
Qed.

(** The instruction of the IDL itself is not encoded when its name is in
    snake case. *)
Lemma encode_unknown_method_doThing :
  ∃ this,
    constructor Examples.snakeIdl = Ok this
    ∧ encode this "do_thing" (VObj []) = Err (Error "Unknown method: doThing").
Proof.
  constructed Examples.snakeIdl this Hthis.
  exists this. split; [reflexivity|].
  exact (encode_unknown_method Examples.snakeIdl this "do_thing" (VObj []) Hthis
           (or_intror doThing_not_camelCase)).
Defined.

Lemma constructor_no_instructions_empty :
  ∃ this, constructor Examples.emptyIdl = Ok this
    ∧ discriminatorLength this = None
    ∧ (∀ ix encoding, decode this (IxBuffer ix) encoding = Ok None)
    ∧ (∀ ixName v,
         encode this ixName v = Err (Error ("Unknown method: " +:+ camelCase ixName))).
Proof. exact (constructor_no_instructions Examples.emptyIdl eq_refl). Defined.

Lemma move_fieldLayout_throws :
  fieldLayout {| f_name := "to"; f_type := IdlTypeDefined "Point" |}
    (default [] (accounts Examples.moveIdl) ++ default [] (types Examples.moveIdl))
  = Err (Error "Type not found: Point").
Proof. vm_compute. reflexivity. Qed.

Lemma constructor_fieldLayout_throws_move :
  ∃ e, constructor Examples.moveIdl = Err e.
Proof.
  exact (constructor_fieldLayout_throws Examples.moveIdl Examples.move
           {| f_name := "to"; f_type := IdlTypeDefined "Point" |} _
           (list_elem_of_here _ _) (list_elem_of_here _ _) move_fieldLayout_throws).
Defined.

Lemma transfer_last_discriminator :
  ∀ y, y ∈ [] → (discriminatorOf y).1 ≠ (discriminatorOf Examples.transfer).1.
Proof. intros y Hy. by apply elem_of_nil in Hy. Qed.

(** The bytes of the arguments of section 8.1 after the discriminator of
    "transfer" are read by the layout kept under "transfer". *)
Lemma decode_known_discriminator_transfer :
  ∃ this l,
    constructor Examples.transferIdl = Ok this
    ∧ ixLayout this !! "transfer" = Some l
    ∧ decode this
        (IxBuffer ((discriminatorOf Examples.transfer).1 ++ Examples.transferBytes)) hex
      = d ← layout_decode l Examples.transferBytes;
        Ok (Some {| name := "transfer"; data := d |}).
Proof.
  constructed Examples.transferIdl this Hthis.
  destruct (ixLayout this !! "transfer") as [l|] eqn:Hl.
  - exists this, l. split; [reflexivity|]. split; [exact Hl|].
    exact (decode_known_discriminator Examples.transferIdl this [Examples.initialize] []
             Examples.transfer l Examples.transferBytes hex
             Hthis eq_refl transfer_discriminator_length transfer_last_discriminator Hl).
  - exfalso.
    assert ((this ← constructor Examples.transferIdl;
             Ok (isOk (ofOption (ixLayout this !! "transfer")))) = Ok true)
      as Hrun by (vm_compute; reflexivity).
    run_with Hthis Hrun. rewrite Hl in Hrun. discriminate Hrun.
Defined.





(** The instruction decoded from the bytes of section 8.1 is one [format]
    knows. *)
Lemma decode_then_format_transfer :
  ∃ this,
    constructor Examples.transferIdl = Ok this
    ∧ (∃ i, i ∈ instructions Examples.transferIdl ∧ ix_name i = "transfer")
    ∧ format 3 this {| name := "transfer"; data := Examples.transferArgs |}
        Examples.fourMetas ≠ Ok None.
Proof.
  constructed Examples.transferIdl this Hthis.
  exists this. split; [reflexivity|].
  assert ((this ← constructor Examples.transferIdl;
           decode this
             (IxBuffer ((discriminatorOf Examples.transfer).1 ++ Examples.transferBytes)) hex)
          = Ok (Some {| name := "transfer"; data := Examples.transferArgs |}))
    as Hrun by (vm_compute; reflexivity).
  run_with Hthis Hrun.
  exact (decode_then_format Examples.transferIdl this _ hex
           {| name := "transfer"; data := Examples.transferArgs |} 3 Examples.fourMetas
           Hthis Hrun).
Defined.

(** The layout of "transfer" is the structure of the layouts of the amount
    and the memo. *)
Lemma constructor_layout_transfer :
  ∃ this fieldLayouts,
    constructor Examples.transferIdl = Ok this
    ∧ mapM (fun arg => fieldLayout arg [Examples.State]) (ix_args Examples.transfer)
      = Ok fieldLayouts
    ∧ ixLayout this !! "transfer" = Some (struct fieldLayouts "transfer").
Proof.
  constructed Examples.transferIdl this Hthis.
  destruct (constructor_layout Examples.transferIdl this [Examples.initialize] []
              Examples.transfer Hthis eq_refl transfer_camelCase_last)
    as (fieldLayouts & Hfields & Hlayout).
  exists this, fieldLayouts. split; [reflexivity|]. split; [exact Hfields|exact Hlayout].
Defined.

(** The bytes [encode] returns for the arguments of section 8.1 start with
    the discriminator of an instruction named "transfer". *)
Lemma encode_starts_with_discriminator_transfer :
  ∃ this i body,
    constructor Examples.transferIdl = Ok this
    ∧ i ∈ instructions Examples.transferIdl
    ∧ ix_name i = "transfer"
    ∧ (discriminatorOf Examples.transfer).1 ++ Examples.transferBytes
      = (discriminatorOf i).1 ++ body.
Proof.
  constructed Examples.transferIdl this Hthis.
  assert ((this ← constructor Examples.transferIdl;
           encode this "transfer" Examples.transferArgs)
          = Ok ((discriminatorOf Examples.transfer).1 ++ Examples.transferBytes))
    as Hrun by (vm_compute; reflexivity).
  run_with Hthis Hrun.
  destruct (encode_starts_with_discriminator Examples.transferIdl this "transfer"
              Examples.transferArgs _ Hthis Hrun) as (i & body & Hi & Hname & Hbytes).
  exists this, i, body. split; [reflexivity|]. split; [exact Hi|]. split; [exact Hname|exact Hbytes].
Defined.

(** A vector of optional arrays of bytes. *)
Lemma formatIdlType_spec_label_nested :
  formatIdlType (IdlTypeVec (IdlTypeOption (IdlTypeArray (IdlTypePrim "u8") 32)))
  = Ok "Vec<Option<Array<u8; 32>>>".
Proof.
  exact (formatIdlType_spec_label
           (IdlTypeVec (IdlTypeOption (IdlTypeArray (IdlTypePrim "u8") 32))) eq_refl).
Defined.

Lemma memo_elements :
  Forall (fun d => d ≠ VNull ∧ d ≠ VUndefined) [VNum 104; VNum 105].
Proof. repeat constructor; discriminate. Qed.

(** The memo of section 8.1. *)
Lemma formatIdlData_vec_of_primitives_memo :
  formatIdlData 2 {| f_name := "memo"; f_type := IdlTypeVec (IdlTypePrim "u8") |}
    (VArr [VNum 104; VNum 105]) None
  = Ok "[104, 105]".
Proof.
  exact (formatIdlData_vec_of_primitives 0 "memo" "u8" [VNum 104; VNum 105] None
           memo_elements).
Defined.

Lemma State_twice :
  length (filter (fun t => td_name t = "State") [Examples.State; Examples.State]) ≠ 1.
Proof. intros Hlength. vm_compute in Hlength. discriminate Hlength. Qed.

(** A type the table holds twice. *)
Lemma formatIdlData_type_not_found_twice :
  formatIdlData 1 Examples.stateField Examples.idle (Some [Examples.State; Examples.State])
  = Err (Error "Type not found: State").
Proof.
  exact (formatIdlData_type_not_found 0 "state" "State" Examples.idle
           [Examples.State; Examples.State] State_twice).
Defined.

Lemma Point_fields :
  td_type Examples.Point
  = IdlTypeDefTyStruct [ {| f_name := "x"; f_type := IdlTypePrim "u8" |};
                         {| f_name := "y"; f_type := IdlTypePrim "u8" |} ].
Proof. reflexivity. Qed.

Lemma point_keys : NoDup (map fst [("y", VNum 2); ("x", VNum 1)]).
Proof. apply (bool_decide_unpack _). vm_compute. reflexivity. Qed.

Lemma point_values :
  Forall (fun kv : string * value =>
    kv.2 ≠ VNull ∧ kv.2 ≠ VUndefined
    ∧ ∃ f label,
        head (filter (fun f => f_name f = kv.1)
                [ {| f_name := "x"; f_type := IdlTypePrim "u8" |};
                  {| f_name := "y"; f_type := IdlTypePrim "u8" |} ]) = Some f
        ∧ f_type f = IdlTypePrim label)
    [("y", VNum 2); ("x", VNum 1)].
Proof.
  repeat constructor; try discriminate.
  - by exists {| f_name := "y"; f_type := IdlTypePrim "u8" |}, "u8".
  - by exists {| f_name := "x"; f_type := IdlTypePrim "u8" |}, "u8".
Qed.

(** A point, its keys in the order of the value. *)
Lemma formatIdlData_struct_of_primitives_point :
  formatIdlData 2 {| f_name := "to"; f_type := IdlTypeDefined "Point" |}
    (VObj [("y", VNum 2); ("x", VNum 1)]) (Some [Examples.State; Examples.Point])
  = Ok "{ y: 2, x: 1 }".
Proof.
  exact (formatIdlData_struct_of_primitives 0 "to" "Point" Examples.Point _
           [Examples.State; Examples.Point] [("y", VNum 2); ("x", VNum 1)]
           eq_refl Point_fields point_keys point_values).
Defined.

Lemma z_key : "z" ∈ map fst [("x", VNum 1); ("z", VNum 3)].
Proof. apply list_elem_of_further, list_elem_of_here. Qed.

Lemma z_no_field :
  ∀ f, f ∈ [ {| f_name := "x"; f_type := IdlTypePrim "u8" |};
             {| f_name := "y"; f_type := IdlTypePrim "u8" |} ] → f_name f ≠ "z".
Proof.
  intros f Hf.
  apply elem_of_cons in Hf as [->|Hf]; [done|].
  apply elem_of_cons in Hf as [->|Hf]; [done|].
  by apply elem_of_nil in Hf.
Qed.

(** A point with a third coordinate. *)
Lemma formatIdlData_struct_unknown_key_z :
  ∃ e, formatIdlData 2 {| f_name := "to"; f_type := IdlTypeDefined "Point" |}
         (VObj [("x", VNum 1); ("z", VNum 3)]) (Some [Examples.Point]) = Err e.
Proof.
  exact (formatIdlData_struct_unknown_key 1 "to" "Point" Examples.Point _
           [Examples.Point] [("x", VNum 1); ("z", VNum 3)] "z"
           eq_refl Point_fields z_key z_no_field).
Defined.

Lemma State_variants :
  td_type Examples.State
  = IdlTypeDefTyEnum
      ({| v_name := "Idle"; v_fields := None |}
       :: [ {| v_name := "Running";
               v_fields := Some (IdlEnumFieldsNamed
                 [ {| f_name := "progress"; f_type := IdlTypePrim "u8" |} ]) |} ]).
Proof. reflexivity. Qed.

Lemma Idle_named : v_name {| v_name := "Idle"; v_fields := None |} ≠ "".
Proof. discriminate. Qed.

(** The running state of section 8.6. *)
Lemma formatIdlData_enum_fields_throw_running :
  formatIdlData 2 Examples.stateField Examples.running42 (Some [Examples.State])
  = Err (Error "Unable to find variant")
  ∨ formatIdlData 2 Examples.stateField Examples.running42 (Some [Examples.State])
    = Err TypeError.
Proof.
  exact (formatIdlData_enum_fields_throw 1 "state" "State" Examples.State _ _
           [Examples.State] "running" "progress" (VNum 42) []
           eq_refl State_variants Idle_named).
Defined.

(** A key that is no variant of the enum. *)
Lemma formatIdlData_enum_unit_variant_paused :
  formatIdlData 2 Examples.stateField (VObj [("paused", VObj []); ("idle", VObj [])])
    (Some [Examples.State])
  = Ok "Paused".
Proof.
  exact (formatIdlData_enum_unit_variant 1 "state" "State" Examples.State _ _
           [Examples.State] "paused" [("idle", VObj [])]
           eq_refl State_variants Idle_named).
Defined.

Lemma owner_Owner : "owner" ≠ "Owner".
Proof. discriminate. Qed.

Lemma sentenceCase_distinct_owner : sentenceCase "owner" ≠ sentenceCase "Owner".
Proof. exact (sentenceCase_distinct "owner" "Owner" eq_refl eq_refl owner_Owner). Defined.

(** One capital letter in "systemProgram", and the space before "Owner". *)
Lemma sentenceCase_length_systemProgram :
  String.length (sentenceCase "systemProgram") = String.length "systemProgram" + 1
  ∧ sentenceCase "Owner" = " Owner".
Proof.
  split.
  - exact (proj1 (sentenceCase_length "systemProgram" eq_refl)).
  - exact (proj2 (sentenceCase_length "Owner" eq_refl) "O"%char "wner" eq_refl eq_refl).
Defined.






(** The display of section 8.7: two arguments, four accounts. *)
Lemma format_entries_transfer :
  ∃ display,
    InstructionFormatter.format 3 {| name := "transfer"; data := Examples.transferArgs |}
      Examples.fourMetas Examples.transferIdl = Ok (Some display)
    ∧ map arg_name (args display) = ["amount"; "memo"]
    ∧ map (fun a => (da_pubkey a, da_isSigner a, da_isWritable a)) (display_accounts display)
      = map (fun meta => (pubkey meta, isSigner meta, isWritable meta)) Examples.fourMetas.
Proof.
  destruct (InstructionFormatter.format 3
              {| name := "transfer"; data := Examples.transferArgs |}
              Examples.fourMetas Examples.transferIdl) as [[display|]|e] eqn:Hformat.
  - exists display. split; [reflexivity|].
    exact (format_entries 3 {| name := "transfer"; data := Examples.transferArgs |}
             Examples.fourMetas Examples.transferIdl Examples.transfer [] display
             eq_refl Hformat).
  - exfalso. vm_compute in Hformat. discriminate Hformat.
  - exfalso. vm_compute in Hformat. discriminate Hformat.
Defined.

Lemma transfer_last_name :
  ∀ y, y ∈ [] →
    ix_name y ≠ ix_name Examples.transfer
    ∧ (discriminatorOf y).1 ≠ (discriminatorOf Examples.transfer).1.
Proof. intros y Hy. by apply elem_of_nil in Hy. Qed.

(** The arguments of section 8.1, with the layouts of section 4.1. *)
Lemma encode_decode_any_layout_transfer :
  ∃ this,
    constructor Examples.transferIdl = Ok this
    ∧ encode this "transfer" Examples.transferArgs
      = Ok ((discriminatorOf Examples.transfer).1 ++ Examples.transferBytes)
    ∧ decode this
        (IxBuffer ((discriminatorOf Examples.transfer).1 ++ Examples.transferBytes)) base58
      = Ok (Some {| name := "transfer"; data := Examples.transferArgs |}).
Proof.
  constructed Examples.transferIdl this Hthis.
  exists this. split; [reflexivity|].
  destruct (transfer_layout_Writes this 1000 [VNum 104; VNum 105]
              (Buffer_from [232; 3; 0; 0; 0; 0; 0; 0]%Z)
              (Buffer_from [2; 0; 0; 0; 104; 105]%Z) Hthis)
    as (l & Hl & Hwrites); [vm_compute; reflexivity|vm_compute; reflexivity|].
  assert ((this ← constructor Examples.transferIdl;
           l ← ofOption (ixLayout this !! camelCase (ix_name Examples.transfer));
           layout_decode l Examples.transferBytes) = Ok Examples.transferArgs)
    as Hreads by (vm_compute; reflexivity).
  run_with Hthis Hreads. rewrite Hl in Hreads. simpl ofOption in Hreads.
  rewrite result_bind_Ok in Hreads.
  exact (encode_decode_any_layout Examples.transferIdl this [Examples.initialize] []
           Examples.transfer Examples.transferArgs l Examples.transferBytes base58
           Hthis eq_refl eq_refl transfer_discriminator_length transfer_last_name
           Hl Hwrites transferBytes_fit Hreads).
Defined.
